(** * send-carbide: the GCODE transfer client, embedded and verified

    A shallow embedding of [main.go]: the message framer [readMessage], the
    status parser [getState] and the transfer driver [main], together with
    the parts of the Go runtime they call ([io.Reader], [bufio], [strings],
    [zap]'s global logger), followed by the properties of the protocol.

    Go strings and byte slices are lists of 8-bit characters.  Go's pair of
    results [(value, error)] is a pair whose second half is [option error],
    [None] standing for [nil]. *)

From Stdlib Require Import String Ascii DecimalString DecimalFacts DecimalPos.
From Stdlib Require Import Bool Arith ZArith Lia List.
Import ListNotations.
Local Open Scope string_scope.
Local Open Scope list_scope.
Local Open Scope nat_scope.

Set Implicit Arguments.

(** ** Bytes, strings and errors *)

Definition bytes := list ascii.

(** A Go string literal. *)
Definition str (s : string) : bytes := list_ascii_of_string s.

Definition bytes_eqb (a b : bytes) : bool :=
  if list_eq_dec ascii_dec a b then true else false.

(** [errors.New]: an error value is its text. *)
Record error := errors_New { text : string }.

(** [const terminationCharacter = '\x0a'] and [const messageBufferSize = 128]. *)
Definition terminationCharacter : ascii := ascii_of_nat 10.
Definition messageBufferSize : nat := 128.

(** ** The global logger

    [zap.L()] is a process-wide logger.  An entry is kept when its level is at
    least the configured one; the structured fields of an entry carry no
    control flow and are left out. *)

Inductive Level := DebugLevel | InfoLevel | ErrorLevel | FatalLevel.

Definition Level_rank (l : Level) : nat :=
  match l with DebugLevel => 0 | InfoLevel => 1 | ErrorLevel => 2 | FatalLevel => 3 end.

Definition Level_eqb (a b : Level) : bool := Level_rank a =? Level_rank b.

Record Entry := mkEntry { level : Level; message : string }.

(** [enabled = None] is zap's initial no-op global logger. *)
Record Logger := mkLogger { enabled : option Level; entries : list Entry }.

Definition Logger_write (lvl : Level) (msg : string) (l : Logger) : Logger :=
  match enabled l with
  | Some min =>
      if Level_rank min <=? Level_rank lvl
      then mkLogger (enabled l) (entries l ++ [mkEntry lvl msg])
      else l
  | None => l
  end.

Definition logged (lvl : Level) (l : Logger) : bool :=
  existsb (fun e => Level_eqb (level e) lvl) (entries l).

Definition logged_msg (lvl : Level) (msg : string) (l : Logger) : bool :=
  existsb (fun e => Level_eqb (level e) lvl && String.eqb (message e) msg) (entries l).

(** ** [io.Reader]

    [Read r cap] is [r.Read(p)] with [len(p) = cap]: the bytes stored in
    [p[0:n]], the error, and the reader afterwards.  The interface promises
    [0 <= n <= len(p)]. *)

Class Reader (R : Type) := {
  Read : R -> nat -> (bytes * option error) * R;
  Read_fits : forall r cap, length (fst (fst (Read r cap))) <= cap
}.

(** ** The process state and the monad of Go statements

    A statement either falls through with a value, returns from [main], or
    ends the process with [os.Exit]. *)

Inductive Ctl (A : Type) :=
| Next (a : A)
| Return_
| os_Exit (code : Z).
Arguments Return_ {A}.
Arguments os_Exit {A} code.

Definition Go (S A : Type) := S -> Ctl A * S.

Definition ret {S A} (a : A) : Go S A := fun s => (Next a, s).

Definition bind {S A B} (m : Go S A) (k : A -> Go S B) : Go S B :=
  fun s =>
    match m s with
    | (Next a, s') => k a s'
    | (Return_, s') => (Return_, s')
    | (os_Exit c, s') => (os_Exit c, s')
    end.

Definition return_ {S A} : Go S A := fun s => (Return_, s).

Notation "x <- m ;; k" := (bind m (fun x => k))
  (at level 61, m at next level, right associativity).
Notation "' pat <- m ;; k" := (bind m (fun x => match x with pat => k end))
  (at level 61, pat pattern, m at next level, right associativity).
Notation "m ;; k" := (bind m (fun _ => k))
  (at level 61, right associativity).

(** The buffered writer and the input file are declared before the process
    state that owns them. *)

(** *** The write half of the TCP connection

    [wire] is what has reached the peer; [room = Some k] is a connection that
    breaks once [k] more bytes have been accepted. *)
Record ConnOut := mkConnOut { wire : bytes; room : option nat }.

Definition ConnOut_Write (c : ConnOut) (p : bytes) : (nat * option error) * ConnOut :=
  match room c with
  | None => ((length p, None), mkConnOut (wire c ++ p) None)
  | Some k =>
      if length p <=? k
      then ((length p, None), mkConnOut (wire c ++ p) (Some (k - length p)))
      else ((k, Some (errors_New "write: broken pipe")),
            mkConnOut (wire c ++ firstn k p) (Some 0))
  end.

(** *** [bufio.Writer] *)
Definition defaultBufSize : nat := 4096.

Record bufio_Writer := mkWriter { wr : ConnOut; wbuf : bytes; werr : option error }.

Definition bufio_NewWriter (c : ConnOut) : bufio_Writer := mkWriter c [] None.

Definition Available (b : bufio_Writer) : nat := defaultBufSize - length (wbuf b).
Definition Buffered (b : bufio_Writer) : nat := length (wbuf b).

Definition Flush (b : bufio_Writer) : option error * bufio_Writer :=
  match werr b with
  | Some e => (Some e, b)
  | None =>
      match wbuf b with
      | [] => (None, b)
      | _ =>
          let '((n, e), c) := ConnOut_Write (wr b) (wbuf b) in
          match e with
          | Some e => (Some e, mkWriter c (skipn n (wbuf b)) (Some e))
          | None => (None, mkWriter c [] None)
          end
      end
  end.

(** [Write]: the loop [for len(p) > b.Available() && b.err == nil] runs at
    most twice (fill and flush, then a direct write of what is still too
    large), and is written out. *)
Definition Write_direct (b : bufio_Writer) (nn : nat) (p : bytes)
  : (nat * option error) * bufio_Writer :=
  let '((n, e), c) := ConnOut_Write (wr b) p in
  ((nn + n, e), mkWriter c (wbuf b) e).

Definition Write_copy (b : bufio_Writer) (nn : nat) (p : bytes)
  : (nat * option error) * bufio_Writer :=
  ((nn + length p, None), mkWriter (wr b) (wbuf b ++ p) None).

Definition Write (b : bufio_Writer) (p : bytes) : (nat * option error) * bufio_Writer :=
  match werr b with
  | Some e => ((0, Some e), b)
  | None =>
      if length p <=? Available b then Write_copy b 0 p
      else if Buffered b =? 0 then Write_direct b 0 p
      else
        let n := Available b in
        let '(_, b1) := Flush (mkWriter (wr b) (wbuf b ++ firstn n p) None) in
        let p' := skipn n p in
        match werr b1 with
        | Some e => ((n, Some e), b1)
        | None =>
            if length p' <=? Available b1 then Write_copy b1 n p'
            else Write_direct b1 n p'
        end
  end.

Definition WriteByte (b : bufio_Writer) (c : ascii) : option error * bufio_Writer :=
  match werr b with
  | Some e => (Some e, b)
  | None =>
      if Available b <=? 0 then
        match Flush b with
        | (Some e, b1) => (Some e, b1)
        | (None, b1) => (None, mkWriter (wr b1) (wbuf b1 ++ [c]) None)
        end
      else (None, mkWriter (wr b) (wbuf b ++ [c]) None)
  end.

(** *** The opened input file

    Reading the handle yields [content] and then end of file, or [content]
    and then the error [read_err]. *)
Record File := mkFile { content : bytes; read_err : option error }.

(** [io.Copy(dst, src)] copies from [src] to [dst] until either EOF is reached
    on [src] or an error occurs, and returns the number of bytes copied and
    the first error met.  The copy is one [Write] of the content; the
    library fills and flushes the buffer in its own steps, so that how the
    bytes are split between the wire and the buffer before the final
    [Flush] may differ, not which bytes were accepted. *)
Definition io_Copy (dst : bufio_Writer) (src : File)
  : (nat * option error) * bufio_Writer :=
  let '((n, e), dst') := Write dst (content src) in
  match e with
  | Some e => ((n, Some e), dst')
  | None => ((n, read_err src), dst')
  end.

(** *** The process state

    [r] is the reader handed to [readMessage] and [getState]; [w] and [input]
    are [main]'s buffered writer and file. *)
Record World (R : Type) := mkWorld {
  zap_L : Logger;
  r : R;
  w : bufio_Writer;
  input : File
}.

(** ** [strings]

    [strings.ToUpper], [strings.ToLower] and [strings.TrimSpace] treat a
    string of ASCII bytes byte by byte; a string with a byte at or above
    [utf8.RuneSelf] goes through the Unicode tables, which are a parameter. *)

Class Unicode := {
  unicode_ToUpper : bytes -> bytes;
  unicode_ToLower : bytes -> bytes;
  unicode_TrimSpace : bytes -> bytes
}.

Definition utf8_RuneSelf : nat := 128.

Definition isASCII (s : bytes) : bool :=
  forallb (fun c => nat_of_ascii c <? utf8_RuneSelf) s.

Definition ascii_upper (c : ascii) : ascii :=
  let n := nat_of_ascii c in
  if (97 <=? n) && (n <=? 122) then ascii_of_nat (n - 32) else c.

Definition ascii_lower (c : ascii) : ascii :=
  let n := nat_of_ascii c in
  if (65 <=? n) && (n <=? 90) then ascii_of_nat (n + 32) else c.

(** [asciiSpace]: tab, line feed, vertical tab, form feed, carriage return
    and space. *)
Definition asciiSpace (c : ascii) : bool :=
  let n := nat_of_ascii c in
  ((9 <=? n) && (n <=? 13)) || (n =? 32).

Fixpoint trimLeft (s : bytes) : bytes :=
  match s with
  | c :: rest => if asciiSpace c then trimLeft rest else s
  | [] => []
  end.

Definition trimRight (s : bytes) : bytes := rev (trimLeft (rev s)).

Section Strings.
Context {U : Unicode}.

Definition strings_ToUpper (s : bytes) : bytes :=
  if isASCII s then map ascii_upper s else unicode_ToUpper s.

Definition strings_ToLower (s : bytes) : bytes :=
  if isASCII s then map ascii_lower s else unicode_ToLower s.

Definition strings_TrimSpace (s : bytes) : bytes :=
  if isASCII s then trimRight (trimLeft s) else unicode_TrimSpace s.
End Strings.

(** [strings.Split(s, sep)] for a separator of one byte: the substrings
    between the separators, one more than there are separators. *)
Fixpoint strings_Split (s : bytes) (sep : ascii) : list bytes :=
  match s with
  | [] => [[]]
  | c :: rest =>
      if Ascii.eqb c sep then [] :: strings_Split rest sep
      else match strings_Split rest sep with
           | t :: ts => (c :: t) :: ts
           | [] => [[c]]
           end
  end.

(** [fmt.Sprintf("%d", n)]. *)
Definition fmt_d (n : Z) : bytes := str (NilZero.string_of_int (Z.to_int n)).

(** ** The framer and the parser *)

(** The loop of [readMessage]: [buffer[i:n]] still to scan and the bytes
    appended to [outputBuffer] so far; the result carries the index of the
    terminator when the loop left through [break]. *)
Fixpoint scan (i : nat) (buffer outputBuffer : bytes) : bytes * option nat :=
  match buffer with
  | [] => (outputBuffer, None)
  | c :: rest =>
      if Ascii.eqb c terminationCharacter then (outputBuffer, Some i)
      else scan (S i) rest (outputBuffer ++ [c])
  end.

Definition errOversizedMessage : error := errors_New "oversized message".
Definition errInvalidStatusMessage : error := errors_New "invalid status message".

Definition space : ascii := ascii_of_nat 32.

Section Statements.
Context {R : Type} `{Reader R} {U : Unicode}.

Definition zap (lvl : Level) (msg : string) : Go (World R) unit :=
  fun s => (Next tt, mkWorld (Logger_write lvl msg (zap_L s)) (r s) (w s) (input s)).

Definition zap_Debug := zap DebugLevel.
Definition zap_Info := zap InfoLevel.
Definition zap_Error := zap ErrorLevel.

(** [zap.L().Fatal] writes the entry and calls [os.Exit(1)]. *)
Definition zap_Fatal {A} (msg : string) : Go (World R) A :=
  fun s => (os_Exit 1, mkWorld (Logger_write FatalLevel msg (zap_L s)) (r s) (w s) (input s)).

Definition r_Read (cap : nat) : Go (World R) (bytes * option error) :=
  fun s =>
    let '(res, r') := Read (r s) cap in
    (Next res, mkWorld (zap_L s) r' (w s) (input s)).

Definition readMessage : Go (World R) (bytes * option error) :=
  '(buffer, err) <- r_Read messageBufferSize ;;
  match err with
  | Some e =>
      zap_Error "failed to read message" ;;
      ret (str "", Some e)
  | None =>
      let '(outputBuffer, found) := scan 0 buffer [] in
      match found with
      | Some _ => zap_Debug "found termination character"
      | None => ret tt
      end ;;
      if messageBufferSize <=? length outputBuffer then
        zap_Error "failed to read message" ;;
        ret (str "", Some errOversizedMessage)
      else ret (outputBuffer, None)
  end.

Definition getState : Go (World R) (bytes * option error) :=
  '(statusLine, err) <- readMessage ;;
  match err with
  | Some e => ret (str "", Some e)
  | None =>
      let tokens := strings_Split statusLine space in
      if negb (length tokens =? 2) then
        zap_Error "unexpected number of tokens" ;;
        ret (str "", Some errInvalidStatusMessage)
      else if negb (bytes_eqb (strings_ToUpper (nth 0 tokens [])) (str "STATE:")) then
        zap_Error "unexpected message key" ;;
        ret (str "", Some errInvalidStatusMessage)
      else ret (strings_ToLower (strings_TrimSpace (nth 1 tokens [])), None)
  end.

End Statements.

(** ** The connection's read half and [bufio.Reader] *)

(** What successive [Read] calls on the socket find: bytes that have
    arrived, or a failure.  An exhausted script is a peer that has closed. *)
Inductive Segment := Data (bs : bytes) | Failure (e : error).

Definition ConnIn := list Segment.

Definition io_EOF : error := errors_New "EOF".

Definition ConnIn_Read (c : ConnIn) (cap : nat) : (bytes * option error) * ConnIn :=
  match c with
  | [] => (([], Some io_EOF), [])
  | Failure e :: rest => (([], Some e), rest)
  | Data bs :: rest =>
      if length bs <=? cap then ((bs, None), rest)
      else ((firstn cap bs, None), Data (skipn cap bs) :: rest)
  end.

Lemma ConnIn_Read_fits (c : ConnIn) (cap : nat) :
  length (fst (fst (ConnIn_Read c cap))) <= cap.
Proof.
  destruct c as [|[bs|e] rest]; simpl; try lia.
  destruct (length bs <=? cap) eqn:E; simpl.
  - apply Nat.leb_le; exact E.
  - rewrite length_firstn; lia.
Qed.

#[export] Instance ConnIn_Reader : Reader ConnIn :=
  {| Read := ConnIn_Read; Read_fits := ConnIn_Read_fits |}.

Record bufio_Reader (R : Type) := mkReader { rd : R; rbuf : bytes; rerr : option error }.

Definition bufio_NewReader {R} (c : R) : bufio_Reader R := mkReader c [] None.

(** [bufio.Reader.Read]: at most one [Read] on the underlying reader, and
    only when nothing is buffered; what does not fit [p] stays buffered. *)
Definition bufio_Read {R} `{Reader R} (b : bufio_Reader R) (cap : nat)
  : (bytes * option error) * bufio_Reader R :=
  if cap =? 0 then
    match rbuf b with
    | [] => (([], rerr b), mkReader (rd b) [] None)
    | _ => (([], None), b)
    end
  else
    match rbuf b with
    | [] =>
        match rerr b with
        | Some e => (([], Some e), mkReader (rd b) [] None)
        | None =>
            if defaultBufSize <=? cap then
              let '((data, e), rd') := Read (rd b) cap in
              ((data, e), mkReader rd' [] None)
            else
              let '((data, e), rd') := Read (rd b) defaultBufSize in
              match data with
              | [] => (([], e), mkReader rd' [] None)
              | _ => ((firstn cap data, None), mkReader rd' (skipn cap data) e)
              end
        end
    | _ => ((firstn cap (rbuf b), None), mkReader (rd b) (skipn cap (rbuf b)) (rerr b))
    end.

Lemma bufio_Read_fits {R} `{Reader R} (b : bufio_Reader R) (cap : nat) :
  length (fst (fst (bufio_Read b cap))) <= cap.
Proof.
  unfold bufio_Read.
  destruct (cap =? 0) eqn:E0.
  - destruct (rbuf b); cbn [fst length]; lia.
  - destruct (rbuf b) eqn:Eb.
    + destruct (rerr b); cbn [fst length]; try lia.
      destruct (defaultBufSize <=? cap) eqn:El.
      * pose proof (Read_fits (rd b) cap) as F.
        destruct (Read (rd b) cap) as [[data e] rd']; cbn [fst] in *; exact F.
      * destruct (Read (rd b) defaultBufSize) as [[data e] rd'].
        destruct data; cbn [fst]; [cbn [length]; lia|].
        rewrite length_firstn. apply Nat.le_min_l.
    + cbn [fst]. rewrite length_firstn. apply Nat.le_min_l.
Qed.

#[export] Instance bufio_Reader_Reader {R} `{Reader R} : Reader (bufio_Reader R) :=
  {| Read := bufio_Read; Read_fits := bufio_Read_fits |}.

(** ** The driver

    [main] is embedded statement by statement.  [flag.PrintDefaults] and the
    deferred [Close] calls are left out: they write nothing to the log or
    the connection. *)

(** What [net.DialTCP] connects to: the segments the server will deliver and
    the number of bytes it will accept ([None]: as many as are sent). *)
Record Peer := mkPeer { sends : ConnIn; accepts : option nat }.

(** The command line and the outcome of the calls that set the transfer up. *)
Record Env := mkEnv {
  inputFile : bytes;
  serverAddress : bytes;
  verbosity : bool;
  resolves : bool;          (* net.ResolveTCPAddr returned no error *)
  stat : option Z;          (* os.Stat: fileInfo.Size(), or an error *)
  open : option File;       (* os.Open *)
  dial : option Peer        (* net.DialTCP *)
}.

Definition Process := World (bufio_Reader ConnIn).

Section Main.
Context {U : Unicode}.

(** [zap.ReplaceGlobals] with the level chosen by [-v]. *)
Definition initLogger (env : Env) : Go Process unit :=
  fun s =>
    let lvl := if negb (verbosity env) then InfoLevel else DebugLevel in
    (Next tt, mkWorld (mkLogger (Some lvl) (entries (zap_L s))) (r s) (w s) (input s)).

Definition set_input (f : File) : Go Process unit :=
  fun s => (Next tt, mkWorld (zap_L s) (r s) (w s) f).

Definition set_r (b : bufio_Reader ConnIn) : Go Process unit :=
  fun s => (Next tt, mkWorld (zap_L s) b (w s) (input s)).

Definition set_w (b : bufio_Writer) : Go Process unit :=
  fun s => (Next tt, mkWorld (zap_L s) (r s) b (input s)).

(** A call on [w]: the result is handed on, the writer is updated. *)
Definition on_w {A} (f : bufio_Writer -> A * bufio_Writer) : Go Process A :=
  fun s => let '(a, b) := f (w s) in (Next a, mkWorld (zap_L s) (r s) b (input s)).

Definition get_input : Go Process File := fun s => (Next (input s), s).

Definition header (env : Env) (size : Z) : bytes :=
  str "GCODE: " ++ inputFile env ++ str ":" ++ fmt_d size ++ [terminationCharacter].

Definition main (env : Env) : Go Process unit :=
  initLogger env ;;
  (* Validate input address *)
  (if resolves env then ret tt
   else zap_Fatal "Could not resolve input address") ;;
  (* Validate input file *)
  fileInfo_Size <- match stat env with
                   | Some size => ret size
                   | None => zap_Fatal "Could not find input file"
                   end ;;
  match open env with
  | Some f => set_input f
  | None => zap_Fatal "Could not open input file"
  end ;;
  (* Setup server connection *)
  zap_Info "sending gcode file" ;;
  zap_Debug "connecting" ;;
  conn <- match dial env with
          | Some peer => ret peer
          | None => zap_Error "failed to connect to server" ;; return_
          end ;;
  set_r (bufio_NewReader (sends conn)) ;;
  set_w (bufio_NewWriter (mkConnOut [] (accepts conn))) ;;
  zap_Debug "connected" ;;
  (* Ensure that server is ready to receive *)
  '(state, err) <- getState ;;
  match err with Some _ => return_ | None => ret tt end ;;
  zap_Debug "received state" ;;
  (if negb (bytes_eqb state (str "init")) then
     zap_Error "cannot start outside of init state" ;; return_
   else ret tt) ;;
  (* Write header *)
  zap_Debug "sending header" ;;
  '(_, err) <- on_w (fun w => Write w (header env fileInfo_Size)) ;;
  match err with
  | Some _ => zap_Error "failed sending header" ;; return_
  | None => ret tt
  end ;;
  (* Write GCode *)
  zap_Debug "sending gcode" ;;
  input <- get_input ;;
  '(n, err) <- on_w (fun w => io_Copy w input) ;;
  match err with
  | Some _ => zap_Error "failed sending file over connection" ;; return_
  | None => ret tt
  end ;;
  zap_Debug "sent gcode" ;;
  (* Sent termination signal *)
  err <- on_w (fun w => WriteByte w terminationCharacter) ;;
  match err with
  | Some _ => zap_Error "failed sending termination signal" ;; return_
  | None => ret tt
  end ;;
  (* Flush connection *)
  zap_Debug "flushing" ;;
  err <- on_w Flush ;;
  match err with
  | Some _ => zap_Error "failed flushing connection" ;; return_
  | None => ret tt
  end ;;
  (* Wait for ACK *)
  '(msg, err) <- readMessage ;;
  match err with
  | Some _ => return_
  | None =>
      if negb (bytes_eqb msg (str "GCODE_ACK")) then
        zap_Error "did not receive ack" ;; return_
      else ret tt
  end ;;
  zap_Info "done".

(** The process before [main]: zap's no-op logger and no handle opened. *)
Definition World_init : Process :=
  mkWorld (mkLogger None []) (bufio_NewReader []) (bufio_NewWriter (mkConnOut [] None))
          (mkFile [] None).

Definition run (env : Env) : Ctl unit * Process := main env World_init.

End Main.

(** The process's exit status: [main] returning is status 0. *)
Definition exit_status (c : Ctl unit) : Z :=
  match c with
  | Next _ | Return_ => 0%Z
  | os_Exit code => code
  end.

(** The run reported success: the entry [done] was written. *)
Definition reports_success (p : Process) : bool := logged_msg InfoLevel "done" (zap_L p).

(** The run reported a failure: an entry of level [Error] was written. *)
Definition reports_failure (p : Process) : bool := logged ErrorLevel (zap_L p).

(** What the peer has received. *)
Definition sent (p : Process) : bytes := wire (wr (w p)).

(** A line on the wire: the text and the terminator. *)
Definition line (s : string) : bytes := str s ++ [terminationCharacter].

(** Unicode tables that map nothing, for running the model on ASCII input. *)
Definition Unicode_none : Unicode :=
  {| unicode_ToUpper := fun s => s; unicode_ToLower := fun s => s;
     unicode_TrimSpace := fun s => s |}.

(** ** The vocabulary of the properties *)

(** The key in any letter case: each byte is the byte of [STATE:] or its
    lower-case form. *)
Definition any_case (key pattern : bytes) : Prop :=
  Forall2 (fun c k => c = k \/ c = ascii_lower k) key pattern.

(** A token that neither begins nor ends with ASCII white space. *)
Definition tight (t : bytes) : Prop :=
  match t with
  | [] => True
  | c :: _ => asciiSpace c = false /\ asciiSpace (last t c) = false
  end.

(** Everything the writer has been given and has not lost: what is on the
    wire followed by what is still buffered. *)
Definition accepted (b : bufio_Writer) : bytes := wire (wr b) ++ wbuf b.

(** A writer without a pending error on a connection that never breaks. *)
Definition healthy (b : bufio_Writer) : Prop := werr b = None /\ room (wr b) = None.

Definition configured (l : Logger) : Prop :=
  enabled l = Some InfoLevel \/ enabled l = Some DebugLevel.

(** Neither a failure nor the success has been reported. *)
Definition quiet (l : Logger) : Prop :=
  configured l /\ logged ErrorLevel l = false /\ logged_msg InfoLevel "done" l = false.

(** A failure has been reported, and the success has not. *)
Definition alarmed (l : Logger) : Prop :=
  configured l /\ logged ErrorLevel l = true /\ logged_msg InfoLevel "done" l = false.

(** The process at the call of [getState]. *)
Definition connected (env : Env) (f : File) (peer : Peer) : Process :=
  mkWorld
    (Logger_write DebugLevel "connected"
       (Logger_write DebugLevel "connecting"
          (Logger_write InfoLevel "sending gcode file"
             (mkLogger (Some (if negb (verbosity env) then InfoLevel else DebugLevel)) []))))
    (bufio_NewReader (sends peer))
    (bufio_NewWriter (mkConnOut [] (accepts peer)))
    f.

(** ** A sample transfer

    The ten-byte file [part.nc] sent to a server that delivers the given
    lines, each in a segment of its own, and accepts whatever is sent. *)

Definition sample_file : File := mkFile (str "G0 X10 Y20") None.

Definition server (lines : list string) : Peer :=
  mkPeer (map (fun l => Data (line l)) lines) None.

Definition sample_env (peer : Peer) : Env :=
  mkEnv (str "part.nc") (str "127.0.0.1") false true (Some 10%Z)
        (Some sample_file) (Some peer).

Definition tab : ascii := ascii_of_nat 9.
Definition carriage_return : ascii := ascii_of_nat 13.

(** The sample process as it calls [getState]. *)
Definition sample (peer : Peer) : Process :=
  connected (sample_env peer) sample_file peer.

(** ** The vocabulary of the further properties *)

Definition prefix_of (a b : bytes) : Prop := exists rest, b = a ++ rest.

(** The writer has been given [given]: what is on the wire is a prefix of
    it, and as long as no write failed nothing of it is lost. *)
Definition tracks (b : bufio_Writer) (given : bytes) : Prop :=
  prefix_of (wire (wr b)) given /\ (werr b = None -> accepted b = given).

(** The logger keeps entries from [Info] up and holds no [Debug] entry. *)
Definition terse (l : Logger) : Prop :=
  enabled l = Some InfoLevel /\ logged DebugLevel l = false.

(** The environment with another peer behind the address. *)
Definition with_peer (env : Env) (peer : Peer) : Env :=
  mkEnv (inputFile env) (serverAddress env) (verbosity env) (resolves env)
        (stat env) (open env) (Some peer).

(** A file whose reading fails after six bytes, and the sample transfer
    with a file and a size of one's choice. *)
Definition sample_broken_file : File :=
  mkFile (str "G0 X10") (Some (errors_New "read part.nc: input/output error")).

Definition sample_env_for (f : File) (size : Z) (peer : Peer) : Env :=
  mkEnv (str "part.nc") (str "127.0.0.1") false true (Some size) (Some f) (Some peer).

(** ** Decimal numerals

    The number that the digits of the header's [<byte-length>] field denote
    to whoever reads the line; stated from the wire format, independently
    of the printing done by [fmt_d]. *)





(** * Properties *)

(** ** The framer *)

Lemma scan_no_terminator (buffer : bytes) :
  forall i out, ~ In terminationCharacter buffer ->
    scan i buffer out = (out ++ buffer, None).
Proof.
  induction buffer as [|c rest IH]; intros i out Hn; cbn [scan].
  - now rewrite app_nil_r.
  - destruct (Ascii.eqb c terminationCharacter) eqn:E.
    + apply Ascii.eqb_eq in E. exfalso. apply Hn. now left.
    + rewrite IH by (intro Hin; apply Hn; now right).
      now rewrite <- app_assoc.
Qed.

Lemma scan_terminator (pre post : bytes) :
  forall i out, ~ In terminationCharacter pre ->
    scan i (pre ++ terminationCharacter :: post) out = (out ++ pre, Some (i + length pre)).
Proof.
  induction pre as [|c rest IH]; intros i out Hn; cbn [scan app length].
  - rewrite Ascii.eqb_refl, app_nil_r, Nat.add_0_r. reflexivity.
  - destruct (Ascii.eqb c terminationCharacter) eqn:E.
    + apply Ascii.eqb_eq in E. exfalso. apply Hn. now left.
    + rewrite IH by (intro Hin; apply Hn; now right).
      rewrite <- app_assoc, Nat.add_succ_r. reflexivity.
Qed.

(** The loop never collects more than it was given. *)
Lemma scan_length (buffer : bytes) :
  forall i out, length (fst (scan i buffer out)) <= length out + length buffer.
Proof.
  induction buffer as [|c rest IH]; intros i out; cbn [scan length fst].
  - lia.
  - destruct (Ascii.eqb c terminationCharacter); cbn [fst].
    + lia.
    + specialize (IH (S i) (out ++ [c])). rewrite length_app in IH. cbn [length] in IH. lia.
Qed.

Section Framer.
Context {R : Type} `{Reader R}.

(** [readMessage] unfolded on a read that returned no error. *)
Lemma readMessage_read_ok (s : World R) (buffer : bytes) (r' : R) :
  Read (r s) messageBufferSize = ((buffer, None), r') ->
  readMessage s =
    let '(outputBuffer, found) := scan 0 buffer [] in
    let l := match found with
             | Some _ => Logger_write DebugLevel "found termination character" (zap_L s)
             | None => zap_L s
             end in
    if messageBufferSize <=? length outputBuffer
    then (Next (str "", Some errOversizedMessage),
          mkWorld (Logger_write ErrorLevel "failed to read message" l) r' (w s) (input s))
    else (Next (outputBuffer, None), mkWorld l r' (w s) (input s)).
Proof.
  intros HR. unfold readMessage, bind, r_Read. rewrite HR.
  destruct (scan 0 buffer []) as [out found].
  destruct found; cbn [zap_Debug zap_Error zap ret zap_L r w input];
    destruct (messageBufferSize <=? length out); reflexivity.
Qed.

Lemma readMessage_read_err (s : World R) (buffer : bytes) (e : error) (r' : R) :
  Read (r s) messageBufferSize = ((buffer, Some e), r') ->
  readMessage s =
    (Next (str "", Some e),
     mkWorld (Logger_write ErrorLevel "failed to read message" (zap_L s)) r' (w s) (input s)).
Proof.
  intros HR. unfold readMessage, bind, r_Read. rewrite HR. reflexivity.
Qed.

(** C4: a read of fewer than 128 bytes that holds a terminator yields the
    bytes before the first terminator, unchanged; the terminator and what
    follows it in that read are consumed and not returned. *)
Theorem readMessage_returns_frame (s : World R) (pre post : bytes) (r' : R) :
  Read (r s) messageBufferSize = ((pre ++ terminationCharacter :: post, None), r') ->
  ~ In terminationCharacter pre ->
  length (pre ++ terminationCharacter :: post) < messageBufferSize ->
  readMessage s =
    (Next (pre, None),
     mkWorld (Logger_write DebugLevel "found termination character" (zap_L s))
             r' (w s) (input s)).
Proof.
  intros HR Hpre Hlen.
  rewrite (readMessage_read_ok s HR), scan_terminator by assumption.
  cbn [app].
  rewrite length_app in Hlen.
  destruct (messageBufferSize <=? length pre) eqn:E; [|reflexivity].
  apply Nat.leb_le in E. lia.
Qed.

(** A read that fills the whole buffer without a terminator is rejected. *)
Lemma readMessage_full_buffer (s : World R) (buffer : bytes) (r' : R) :
  Read (r s) messageBufferSize = ((buffer, None), r') ->
  ~ In terminationCharacter buffer ->
  messageBufferSize <= length buffer ->
  readMessage s =
    (Next (str "", Some errOversizedMessage),
     mkWorld (Logger_write ErrorLevel "failed to read message" (zap_L s))
             r' (w s) (input s)).
Proof.
  intros HR Hn Hlen.
  rewrite (readMessage_read_ok s HR), scan_no_terminator by assumption.
  cbn [app].
  destruct (messageBufferSize <=? length buffer) eqn:E; [reflexivity|].
  apply Nat.leb_gt in E. lia.
Qed.

(** C9: a short read without a terminator is returned whole, as a
    successful frame. *)
Theorem readMessage_accepts_unterminated (s : World R) (buffer : bytes) (r' : R) :
  Read (r s) messageBufferSize = ((buffer, None), r') ->
  0 < length buffer < messageBufferSize ->
  ~ In terminationCharacter buffer ->
  readMessage s = (Next (buffer, None), mkWorld (zap_L s) r' (w s) (input s)).
Proof.
  intros HR Hlen Hn.
  rewrite (readMessage_read_ok s HR), scan_no_terminator by assumption.
  cbn [app].
  destruct (messageBufferSize <=? length buffer) eqn:E; [|reflexivity].
  apply Nat.leb_le in E. lia.
Qed.

(** [readMessage] always comes back to its caller, with a result. *)
Lemma readMessage_total (s : World R) :
  exists msg err s', readMessage s = (Next (msg, err), s').
Proof.
  destruct (Read (r s) messageBufferSize) as [[buffer [e|]] r'] eqn:HR.
  - rewrite (readMessage_read_err s HR). eauto.
  - rewrite (readMessage_read_ok s HR).
    destruct (scan 0 buffer []) as [out found].
    destruct (messageBufferSize <=? length out); eauto.
Qed.

(** C10: a frame returned without error is shorter than the buffer. *)
Theorem readMessage_frame_bound (s s' : World R) (msg : bytes) :
  readMessage s = (Next (msg, None), s') ->
  length msg < messageBufferSize.
Proof.
  destruct (Read (r s) messageBufferSize) as [[buffer [e|]] r'] eqn:HR.
  - rewrite (readMessage_read_err s HR). discriminate.
  - rewrite (readMessage_read_ok s HR).
    destruct (scan 0 buffer []) as [out found].
    destruct (messageBufferSize <=? length out) eqn:E; [discriminate|].
    intros Heq. injection Heq as <- _. now apply Nat.leb_gt.
Qed.

End Framer.

(** ** The parser *)

(** [strings.Split] yields one token more than there are separators. *)
Lemma strings_Split_length (s : bytes) (sep : ascii) :
  length (strings_Split s sep) = S (count_occ ascii_dec s sep).
Proof.
  induction s as [|c rest IH]; cbn [strings_Split count_occ length]; [reflexivity|].
  destruct (Ascii.eqb c sep) eqn:E.
  - apply Ascii.eqb_eq in E. subst c.
    destruct (ascii_dec sep sep) as [_|N]; [|congruence].
    cbn [length]. now rewrite IH.
  - apply Ascii.eqb_neq in E.
    destruct (ascii_dec c sep) as [Y|_]; [congruence|].
    destruct (strings_Split rest sep) as [|t ts]; [discriminate|exact IH].
Qed.

Lemma strings_Split_no_sep (s : bytes) (sep : ascii) :
  ~ In sep s -> strings_Split s sep = [s].
Proof.
  induction s as [|c rest IH]; intros Hn; cbn [strings_Split]; [reflexivity|].
  destruct (Ascii.eqb c sep) eqn:E.
  - apply Ascii.eqb_eq in E. exfalso. apply Hn. now left.
  - rewrite IH by (intro Hin; apply Hn; now right). reflexivity.
Qed.

Lemma strings_Split_two (a b : bytes) (sep : ascii) :
  ~ In sep a -> ~ In sep b -> strings_Split (a ++ sep :: b) sep = [a; b].
Proof.
  induction a as [|c rest IH]; intros Ha Hb; cbn [strings_Split app].
  - rewrite Ascii.eqb_refl, strings_Split_no_sep by assumption. reflexivity.
  - destruct (Ascii.eqb c sep) eqn:E.
    + apply Ascii.eqb_eq in E. exfalso. apply Ha. now left.
    + rewrite IH by (try assumption; intro Hin; apply Ha; now right). reflexivity.
Qed.

Lemma bytes_eqb_eq (a b : bytes) : bytes_eqb a b = true <-> a = b.
Proof.
  unfold bytes_eqb. destruct (list_eq_dec ascii_dec a b); split; congruence.
Qed.

Lemma bytes_eqb_neq (a b : bytes) : bytes_eqb a b = false <-> a <> b.
Proof.
  unfold bytes_eqb. destruct (list_eq_dec ascii_dec a b); split; congruence.
Qed.

Lemma any_case_STATE_byte (c k : ascii) :
  In k (str "STATE:") -> c = k \/ c = ascii_lower k ->
  ascii_upper c = k /\ (nat_of_ascii c <? utf8_RuneSelf) = true /\ c <> space.
Proof.
  intros Hin Hc. cbn in Hin.
  repeat (destruct Hin as [<-|Hin]; [destruct Hc as [->| ->]; vm_compute; repeat split; discriminate|]).
  contradiction.
Qed.

Lemma any_case_upper (key pattern : bytes) :
  any_case key pattern ->
  (forall k, In k pattern -> In k (str "STATE:")) ->
  map ascii_upper key = pattern /\ isASCII key = true /\ ~ In space key.
Proof.
  induction 1 as [|c k key' pattern' Hc _ IH]; intros Hsub.
  - repeat split; auto.
  - destruct (any_case_STATE_byte (Hsub k (or_introl eq_refl)) Hc) as (Hu & Ha & Hs).
    destruct IH as (IH1 & IH2 & IH3); [intros k' Hk'; apply Hsub; now right|].
    cbn [map isASCII forallb]. fold (isASCII key').
    rewrite Hu, IH1, Ha, IH2. repeat split.
    intros [E|Hin]; [now apply Hs|now apply IH3].
Qed.

Lemma trimLeft_spaces (ws t : bytes) :
  Forall (fun c => asciiSpace c = true) ws -> trimLeft (ws ++ t) = trimLeft t.
Proof.
  induction 1 as [|c ws' Hc _ IH]; cbn [app trimLeft]; [reflexivity|].
  now rewrite Hc.
Qed.

Lemma trimLeft_tight (t rest : bytes) :
  t <> [] -> tight t -> trimLeft (t ++ rest) = t ++ rest.
Proof.
  destruct t as [|c t']; [congruence|]. intros _ [Hc _].
  cbn [app trimLeft]. now rewrite Hc.
Qed.

Lemma trimLeft_all_spaces (ws : bytes) :
  Forall (fun c => asciiSpace c = true) ws -> trimLeft ws = [].
Proof.
  intros Hws. rewrite <- (app_nil_r ws). now rewrite trimLeft_spaces.
Qed.

Lemma rev_tight (t : bytes) : t <> [] -> tight t -> tight (rev t) /\ rev t <> [].
Proof.
  intros Hne Ht.
  destruct (exists_last Hne) as (t' & z & ->).
  destruct t' as [|c t''].
  - cbn in *. tauto.
  - cbn [app tight] in Ht. destruct Ht as [Hc Hl].
    rewrite app_comm_cons, last_last in Hl.
    rewrite rev_app_distr. cbn [rev app tight]. split; [|discriminate].
    split; [exact Hl|].
    rewrite app_comm_cons, last_last. exact Hc.
Qed.

(** On ASCII text, trimming removes exactly the white space around a tight
    token. *)
Lemma trim_padded (ws1 t ws2 : bytes) :
  Forall (fun c => asciiSpace c = true) ws1 ->
  Forall (fun c => asciiSpace c = true) ws2 ->
  tight t ->
  trimRight (trimLeft (ws1 ++ t ++ ws2)) = t.
Proof.
  intros H1 H2 Ht. rewrite trimLeft_spaces by assumption.
  destruct t as [|c t'] eqn:Et.
  - cbn [app]. rewrite trimLeft_all_spaces by assumption.
    reflexivity.
  - rewrite <- Et in *. assert (Hne : t <> []) by (subst; discriminate).
    rewrite trimLeft_tight by assumption.
    unfold trimRight. rewrite rev_app_distr.
    rewrite trimLeft_spaces by (apply Forall_rev; assumption).
    destruct (rev_tight Hne Ht) as [Hrt Hrne].
    rewrite <- (app_nil_r (rev t)).
    rewrite trimLeft_tight by assumption.
    rewrite app_nil_r. apply rev_involutive.
Qed.

Lemma asciiSpace_isASCII (ws : bytes) :
  Forall (fun c => asciiSpace c = true) ws -> isASCII ws = true.
Proof.
  induction 1 as [|c ws' Hc _ IH]; [reflexivity|].
  cbn [isASCII forallb]. fold (isASCII ws'). rewrite IH, andb_true_r.
  unfold asciiSpace in Hc. unfold utf8_RuneSelf.
  apply Nat.ltb_lt.
  apply orb_true_iff in Hc as [Hc|Hc].
  - apply andb_true_iff in Hc as [_ Hc]. apply Nat.leb_le in Hc. lia.
  - apply Nat.eqb_eq in Hc. lia.
Qed.

Lemma isASCII_app (a b : bytes) : isASCII (a ++ b) = isASCII a && isASCII b.
Proof. apply forallb_app. Qed.

Section Parser.
Context {R : Type} `{Reader R} {U : Unicode}.

(** [getState] past its call of [readMessage]. *)
Lemma getState_read_ok (s s1 : World R) (statusLine : bytes) :
  readMessage s = (Next (statusLine, None), s1) ->
  getState s =
    let tokens := strings_Split statusLine space in
    if negb (length tokens =? 2) then
      (Next (str "", Some errInvalidStatusMessage),
       mkWorld (Logger_write ErrorLevel "unexpected number of tokens" (zap_L s1))
               (r s1) (w s1) (input s1))
    else if negb (bytes_eqb (strings_ToUpper (nth 0 tokens [])) (str "STATE:")) then
      (Next (str "", Some errInvalidStatusMessage),
       mkWorld (Logger_write ErrorLevel "unexpected message key" (zap_L s1))
               (r s1) (w s1) (input s1))
    else (Next (strings_ToLower (strings_TrimSpace (nth 1 tokens [])), None), s1).
Proof.
  intros HM. unfold getState, bind. rewrite HM. cbv zeta.
  destruct (negb (length (strings_Split statusLine space) =? 2)); [reflexivity|].
  destruct (negb (bytes_eqb _ _)); reflexivity.
Qed.

Lemma getState_read_err (s s1 : World R) (msg : bytes) (e : error) :
  readMessage s = (Next (msg, Some e), s1) ->
  getState s = (Next (str "", Some e), s1).
Proof.
  intros HM. unfold getState, bind. rewrite HM. reflexivity.
Qed.

(** C3, amended: a line [STATE: <token>] whose key is in any letter case
    and whose token is surrounded by white space other than the space
    character, and holds no space character, is accepted, and the token is
    returned trimmed and lower-cased. *)
Theorem getState_returns_token (s s1 : World R) (key ws1 token ws2 : bytes) :
  any_case key (str "STATE:") ->
  Forall (fun c => asciiSpace c = true) ws1 ->
  Forall (fun c => asciiSpace c = true) ws2 ->
  ~ In space (ws1 ++ token ++ ws2) ->
  readMessage s = (Next (key ++ space :: ws1 ++ token ++ ws2, None), s1) ->
  getState s =
    (Next (strings_ToLower (strings_TrimSpace (ws1 ++ token ++ ws2)), None), s1)
  /\ (isASCII token = true -> tight token ->
      getState s = (Next (map ascii_lower token, None), s1)).
Proof.
  intros Hkey H1 H2 Hsp HM.
  destruct (any_case_upper Hkey (fun k Hk => Hk)) as (Hup & Hascii & Hnsp).
  assert (HG : getState s =
    (Next (strings_ToLower (strings_TrimSpace (ws1 ++ token ++ ws2)), None), s1)).
  { rewrite (getState_read_ok s HM). cbv zeta.
    rewrite strings_Split_two by assumption.
    cbn [length nth Nat.eqb negb].
    unfold strings_ToUpper at 1. rewrite Hascii, Hup.
    replace (bytes_eqb (str "STATE:") (str "STATE:")) with true
      by (symmetry; now apply bytes_eqb_eq).
    reflexivity. }
  split; [exact HG|].
  intros Htok Htight. rewrite HG.
  unfold strings_TrimSpace.
  rewrite !isASCII_app, Htok, !asciiSpace_isASCII by assumption.
  cbn [andb]. rewrite trim_padded by assumption.
  unfold strings_ToLower. now rewrite Htok.
Qed.

(** C6: a line that does not split on the space character into exactly
    two tokens, or whose first token upper-cased is not [STATE:], is
    rejected with the invalid-status-message error. *)
Theorem getState_rejects_malformed (s s1 : World R) (statusLine : bytes) :
  readMessage s = (Next (statusLine, None), s1) ->
  length (strings_Split statusLine space) <> 2 \/
  strings_ToUpper (nth 0 (strings_Split statusLine space) []) <> str "STATE:" ->
  exists s2,
    getState s = (Next (str "", Some errInvalidStatusMessage), s2)
    /\ r s2 = r s1 /\ w s2 = w s1.
Proof.
  intros HM Hbad. rewrite (getState_read_ok s HM). cbv zeta.
  destruct (length (strings_Split statusLine space) =? 2) eqn:E2; cbn [negb].
  - apply Nat.eqb_eq in E2. destruct Hbad as [Hbad|Hbad]; [contradiction|].
    apply bytes_eqb_neq in Hbad. rewrite Hbad. cbn [negb].
    eexists. repeat split.
  - eexists. repeat split.
Qed.

(** [getState] always comes back to its caller, with a result. *)
Lemma getState_total (s : World R) :
  exists state err s', getState s = (Next (state, err), s').
Proof.
  destruct (readMessage_total s) as (msg & [e|] & s1 & HM).
  - rewrite (getState_read_err s HM). eauto.
  - rewrite (getState_read_ok s HM). cbv zeta.
    destruct (negb (length (strings_Split msg space) =? 2)); [eauto|].
    destruct (negb (bytes_eqb _ _)); eauto.
Qed.

End Parser.

(** ** The buffered writer *)

Lemma ConnOut_Write_ok (c c' : ConnOut) (p : bytes) (n : nat) :
  ConnOut_Write c p = ((n, None), c') -> wire c' = wire c ++ p.
Proof.
  unfold ConnOut_Write. destruct (room c) as [k|].
  - destruct (length p <=? k); intros E; inversion E; reflexivity.
  - intros E; inversion E; reflexivity.
Qed.

Lemma Flush_ok (b b' : bufio_Writer) :
  Flush b = (None, b') ->
  werr b' = None /\ wire (wr b') = accepted b /\ wbuf b' = [].
Proof.
  unfold Flush, accepted. destruct (werr b) eqn:Ee; [discriminate|].
  destruct (wbuf b) as [|c l] eqn:Eb.
  - intros E; inversion E; subst. now rewrite Ee, Eb, app_nil_r.
  - destruct (ConnOut_Write (wr b) (c :: l)) as [[n [e|]] c'] eqn:Ec; [discriminate|].
    intros E; inversion E; subst. cbn [werr wr wbuf].
    now rewrite (ConnOut_Write_ok _ _ Ec).
Qed.

Lemma Write_direct_ok (b b' : bufio_Writer) (nn n : nat) (p : bytes) :
  Write_direct b nn p = ((n, None), b') ->
  werr b' = None /\ accepted b' = wire (wr b) ++ p ++ wbuf b.
Proof.
  unfold Write_direct, accepted.
  destruct (ConnOut_Write (wr b) p) as [[m e] c'] eqn:Ec.
  intros E; inversion E; subst. cbn [werr wr wbuf].
  now rewrite (ConnOut_Write_ok _ _ Ec), <- app_assoc.
Qed.

Lemma Write_ok (b b' : bufio_Writer) (n : nat) (p : bytes) :
  Write b p = ((n, None), b') ->
  werr b' = None /\ accepted b' = accepted b ++ p.
Proof.
  unfold Write. destruct (werr b) eqn:Ee; [discriminate|].
  destruct (length p <=? Available b).
  { unfold Write_copy, accepted. intros E; inversion E; subst.
    cbn [werr wr wbuf]. now rewrite app_assoc. }
  destruct (Buffered b =? 0) eqn:E0.
  { intros E. apply Write_direct_ok in E as [E1 E2]. split; [exact E1|].
    apply Nat.eqb_eq in E0. unfold Buffered in E0. apply length_zero_iff_nil in E0.
    unfold accepted at 2. now rewrite E2, E0, !app_nil_r. }
  destruct (Flush _) as [fe b1] eqn:EF.
  destruct (werr b1) eqn:E1; [discriminate|].
  assert (fe = None) as ->.
  { unfold Flush in EF. cbn [werr wbuf wr] in EF.
    destruct (wbuf b ++ firstn (Available b) p); [now inversion EF|].
    destruct (ConnOut_Write _ _) as [[m [e|]] c']; inversion EF; subst;
      [discriminate|reflexivity]. }
  apply Flush_ok in EF as (_ & EFw & EFb). unfold accepted in EFw. cbn [wr wbuf] in EFw.
  assert (Hsplit : accepted b ++ p = wire (wr b1) ++ skipn (Available b) p).
  { rewrite EFw. unfold accepted. rewrite <- !app_assoc.
    now rewrite firstn_skipn. }
  destruct (length (skipn (Available b) p) <=? Available b1).
  - unfold Write_copy. intros E; inversion E; subst.
    split; [reflexivity|]. rewrite Hsplit. unfold accepted. cbn [wr wbuf].
    now rewrite EFb.
  - intros E. apply Write_direct_ok in E as [E2 E3]. split; [exact E2|].
    now rewrite E3, EFb, app_nil_r, Hsplit.
Qed.

Lemma WriteByte_ok (b b' : bufio_Writer) (c : ascii) :
  WriteByte b c = (None, b') ->
  werr b' = None /\ accepted b' = accepted b ++ [c].
Proof.
  unfold WriteByte. destruct (werr b) eqn:Ee; [discriminate|].
  destruct (Available b <=? 0).
  - destruct (Flush b) as [[e|] b1] eqn:EF; [discriminate|].
    apply Flush_ok in EF as (_ & EFw & EFb).
    intros E; inversion E; subst. unfold accepted at 1. cbn [werr wr wbuf].
    now rewrite EFw, EFb.
  - intros E; inversion E; subst. unfold accepted. cbn [werr wr wbuf].
    split; [reflexivity|]. now rewrite app_assoc.
Qed.

Lemma io_Copy_ok (b b' : bufio_Writer) (f : File) (n : nat) :
  io_Copy b f = ((n, None), b') ->
  werr b' = None /\ accepted b' = accepted b ++ content f.
Proof.
  unfold io_Copy. destruct (Write b (content f)) as [[m [e|]] b1] eqn:EW; [discriminate|].
  intros E. assert (b1 = b') as -> by congruence. exact (Write_ok _ _ EW).
Qed.

(** On a connection that never breaks nothing fails. *)
Lemma ConnOut_Write_healthy (c : ConnOut) (p : bytes) :
  room c = None ->
  ConnOut_Write c p = ((length p, None), mkConnOut (wire c ++ p) None).
Proof. unfold ConnOut_Write. now intros ->. Qed.

Lemma Flush_healthy (b : bufio_Writer) :
  healthy b -> exists b', Flush b = (None, b') /\ healthy b'.
Proof.
  intros [He Hr]. unfold Flush. rewrite He.
  destruct (wbuf b) as [|c l]; [exists b; now repeat split|].
  rewrite ConnOut_Write_healthy by assumption.
  eexists; split; [reflexivity|]. now split.
Qed.

Lemma Write_direct_healthy (b : bufio_Writer) (nn : nat) (p : bytes) :
  healthy b -> exists n b', Write_direct b nn p = ((n, None), b') /\ healthy b'.
Proof.
  intros [He Hr]. unfold Write_direct.
  rewrite ConnOut_Write_healthy by assumption.
  do 2 eexists; split; [reflexivity|]. now split.
Qed.

Lemma Write_healthy (b : bufio_Writer) (p : bytes) :
  healthy b -> exists n b', Write b p = ((n, None), b') /\ healthy b'.
Proof.
  intros Hb. pose proof Hb as [He Hr]. unfold Write. rewrite He.
  destruct (length p <=? Available b).
  { unfold Write_copy. do 2 eexists; split; [reflexivity|]. now split. }
  destruct (Buffered b =? 0); [now apply Write_direct_healthy|].
  destruct (@Flush_healthy (mkWriter (wr b) (wbuf b ++ firstn (Available b) p) None))
    as (b1 & EF & H1); [now split|].
  rewrite EF. pose proof H1 as [H1e H1r]. rewrite H1e.
  destruct (length (skipn (Available b) p) <=? Available b1).
  - unfold Write_copy. do 2 eexists; split; [reflexivity|]. now split.
  - now apply Write_direct_healthy.
Qed.



(** ** The log of a run *)

Lemma Logger_write_configured (lvl : Level) (msg : string) (l : Logger) :
  configured l -> configured (Logger_write lvl msg l).
Proof.
  unfold configured, Logger_write. intros [E|E]; rewrite E;
    destruct (_ <=? _); cbn [enabled]; auto.
Qed.

Lemma Logger_write_Error (msg : string) (l : Logger) :
  msg <> "done" ->
  configured l -> logged_msg InfoLevel "done" l = false ->
  alarmed (Logger_write ErrorLevel msg l).
Proof.
  intros Hm Hc Hd. split; [now apply Logger_write_configured|].
  unfold Logger_write, logged, logged_msg in *.
  destruct Hc as [E|E]; rewrite E; cbn [Level_rank Nat.leb entries];
    rewrite !existsb_app, Hd; cbn; rewrite orb_true_r; auto.
Qed.

Lemma Logger_write_quiet (lvl : Level) (msg : string) (l : Logger) :
  msg <> "done" -> lvl = DebugLevel \/ lvl = InfoLevel ->
  quiet l -> quiet (Logger_write lvl msg l).
Proof.
  intros Hm Hl (Hc & He & Hd). split; [now apply Logger_write_configured|].
  apply String.eqb_neq in Hm.
  unfold Logger_write, logged, logged_msg in *.
  destruct (enabled l) as [min|]; [|auto].
  destruct (_ <=? _); [|auto]. cbn [entries].
  rewrite !existsb_app, He, Hd. cbn [existsb level message orb].
  rewrite Hm, andb_false_r.
  destruct Hl as [-> | ->]; auto.
Qed.

Lemma Logger_write_done (l : Logger) :
  quiet l ->
  logged_msg InfoLevel "done" (Logger_write InfoLevel "done" l) = true
  /\ logged ErrorLevel (Logger_write InfoLevel "done" l) = false.
Proof.
  intros (Hc & He & Hd).
  unfold Logger_write, logged, logged_msg in *.
  destruct Hc as [E|E]; rewrite E; cbn [Level_rank Nat.leb entries];
    rewrite !existsb_app, He, Hd; cbn; auto.
Qed.

Ltac framed :=
  do 3 eexists; split; [reflexivity|]; split; [reflexivity|]; split; [reflexivity|].

Section Frames.
Context {R : Type} `{Reader R} {U : Unicode}.

(** [readMessage] touches the reader and the log, nothing else; its
    result depends on the reader alone; it reports every error it
    returns. *)
Lemma readMessage_effect (s : World R) :
  exists msg err s',
    readMessage s = (Next (msg, err), s')
    /\ w s' = w s /\ input s' = input s
    /\ (quiet (zap_L s) ->
        match err with None => quiet (zap_L s') | Some _ => alarmed (zap_L s') end).
Proof.
  destruct (Read (r s) messageBufferSize) as [[buffer [e|]] r'] eqn:HR.
  - rewrite (readMessage_read_err s HR). framed.
    cbn [zap_L]. intros (Hc & _ & Hd). now apply Logger_write_Error.
  - rewrite (readMessage_read_ok s HR).
    destruct (scan 0 buffer []) as [out found].
    assert (HQ : quiet (zap_L s) ->
                 quiet match found with
                       | Some _ => Logger_write DebugLevel "found termination character" (zap_L s)
                       | None => zap_L s
                       end).
    { intros Hq. destruct found; [|exact Hq].
      apply Logger_write_quiet; auto. discriminate. }
    destruct (messageBufferSize <=? length out); framed; cbn [zap_L]; intros Hq.
    + destruct (HQ Hq) as (Hc & _ & Hd). now apply Logger_write_Error.
    + now apply HQ.
Qed.

Lemma readMessage_reader (s t : World R) :
  r s = r t ->
  fst (readMessage s) = fst (readMessage t)
  /\ r (snd (readMessage s)) = r (snd (readMessage t)).
Proof.
  intros E.
  destruct (Read (r s) messageBufferSize) as [[buffer [e|]] r'] eqn:HR;
    pose proof HR as HR'; rewrite E in HR'.
  - rewrite (readMessage_read_err s HR), (readMessage_read_err t HR'). now split.
  - rewrite (readMessage_read_ok s HR), (readMessage_read_ok t HR').
    destruct (scan 0 buffer []) as [out found].
    destruct (messageBufferSize <=? length out); now split.
Qed.

Lemma getState_effect (s : World R) :
  exists state err s',
    getState s = (Next (state, err), s')
    /\ w s' = w s /\ input s' = input s
    /\ (quiet (zap_L s) ->
        match err with None => quiet (zap_L s') | Some _ => alarmed (zap_L s') end).
Proof.
  destruct (readMessage_effect s) as (msg & [e|] & s1 & HM & Hw & Hi & Hl).
  - rewrite (getState_read_err s HM). do 3 eexists. eauto.
  - rewrite (getState_read_ok s HM). cbv zeta.
    destruct (negb (length (strings_Split msg space) =? 2));
      [|destruct (negb (bytes_eqb _ _))];
      do 3 eexists; (split; [reflexivity|]); cbn [w input zap_L];
      (split; [exact Hw|]); (split; [exact Hi|]); intros Hq;
      try (destruct (Hl Hq) as (Hc & _ & Hd); apply Logger_write_Error; auto; discriminate).
    now apply Hl.
Qed.

Lemma getState_reader (s t : World R) :
  r s = r t ->
  fst (getState s) = fst (getState t)
  /\ r (snd (getState s)) = r (snd (getState t)).
Proof.
  intros E. destruct (readMessage_reader s t E) as [E1 E2].
  destruct (readMessage_total s) as (msg & err & s1 & HM).
  destruct (readMessage_total t) as (msg' & err' & t1 & HM').
  rewrite HM, HM' in E1, E2. cbn [fst snd] in E1, E2.
  injection E1 as -> ->.
  destruct err' as [e|].
  - rewrite (getState_read_err s HM), (getState_read_err t HM'). now split.
  - rewrite (getState_read_ok s HM), (getState_read_ok t HM'). cbv zeta.
    destruct (negb (length (strings_Split msg' space) =? 2));
      [|destruct (negb (bytes_eqb _ _))]; now split.
Qed.

End Frames.

(** ** The driver's log *)

Lemma connected_quiet (env : Env) (f : File) (peer : Peer) :
  quiet (zap_L (connected env f peer)).
Proof.
  unfold connected. cbn [zap_L].
  repeat (apply Logger_write_quiet; [discriminate|auto|]).
  split; [|split; reflexivity].
  unfold configured. cbn [enabled]. destruct (verbosity env); auto.
Qed.

(** ** Reading the socket through [bufio] *)

Lemma messageBufferSize_le_defaultBufSize : messageBufferSize <= defaultBufSize.
Proof. apply Nat.leb_le. vm_compute. reflexivity. Qed.

(** A segment that fits the framer's buffer is handed over whole. *)
Lemma bufio_Read_short (bs : bytes) (tl : ConnIn) :
  bs <> [] -> length bs <= messageBufferSize ->
  Read (bufio_NewReader (Data bs :: tl)) messageBufferSize
  = ((bs, None), mkReader tl [] None).
Proof.
  intros Hne Hlen. cbn [Read bufio_Reader_Reader ConnIn_Reader].
  unfold bufio_Read, bufio_NewReader. cbn [rbuf rerr rd].
  replace (messageBufferSize =? 0) with false by (vm_compute; reflexivity).
  replace (defaultBufSize <=? messageBufferSize) with false by (vm_compute; reflexivity).
  cbn [Read ConnIn_Reader ConnIn_Read].
  pose proof messageBufferSize_le_defaultBufSize as Hle.
  replace (length bs <=? defaultBufSize) with true by (symmetry; apply Nat.leb_le; lia).
  destruct bs as [|c bs']; [congruence|].
  rewrite firstn_all2, skipn_all2 by exact Hlen. reflexivity.
Qed.

(** Of a longer segment the framer's buffer receives the first 128 bytes. *)
Lemma bufio_Read_long (bs : bytes) (tl : ConnIn) :
  messageBufferSize <= length bs ->
  fst (Read (bufio_NewReader (Data bs :: tl)) messageBufferSize)
  = (firstn messageBufferSize bs, None).
Proof.
  intros Hlen. cbn [Read bufio_Reader_Reader ConnIn_Reader].
  unfold bufio_Read, bufio_NewReader. cbn [rbuf rerr rd].
  replace (messageBufferSize =? 0) with false by (vm_compute; reflexivity).
  replace (defaultBufSize <=? messageBufferSize) with false by (vm_compute; reflexivity).
  cbn [Read ConnIn_Reader ConnIn_Read].
  pose proof messageBufferSize_le_defaultBufSize as Hle.
  assert (Hpos : 0 < messageBufferSize) by (apply Nat.ltb_lt; vm_compute; reflexivity).
  destruct (length bs <=? defaultBufSize) eqn:E.
  - destruct bs as [|c bs']; [cbn [length] in Hlen; lia|]. reflexivity.
  - destruct (firstn defaultBufSize bs) as [|c l] eqn:Ef.
    + apply (f_equal (@length ascii)) in Ef. rewrite length_firstn in Ef.
      cbn [length] in Ef. lia.
    + cbn [fst]. rewrite <- Ef, firstn_firstn, Nat.min_l by exact Hle. reflexivity.
Qed.

Lemma line_no_terminator (text : string) :
  forallb (fun c => negb (Ascii.eqb c terminationCharacter)) (str text) = true ->
  ~ In terminationCharacter (str text).
Proof.
  intros Hall Hin. rewrite forallb_forall in Hall. specialize (Hall _ Hin).
  now rewrite Ascii.eqb_refl in Hall.
Qed.


Lemma quiet_Error (msg : string) (l : Logger) :
  msg <> "done" -> quiet l -> alarmed (Logger_write ErrorLevel msg l).
Proof. intros Hm (Hc & _ & Hd). now apply Logger_write_Error. Qed.

Lemma quiet_Debug (msg : string) (l : Logger) :
  msg <> "done" -> quiet l -> quiet (Logger_write DebugLevel msg l).
Proof. intros Hm Hq. apply Logger_write_quiet; auto. Qed.

Lemma alarmed_reports (p : Process) :
  alarmed (zap_L p) -> reports_success p = false /\ reports_failure p = true.
Proof. intros (_ & He & Hd). now split. Qed.

Create HintDb log.
#[local] Hint Resolve quiet_Error quiet_Debug : log.
#[local] Hint Extern 1 (_ <> _) => discriminate : log.

Ltac exec H :=
  cbn [bind ret return_ zap zap_Debug zap_Info zap_Error zap_Fatal initLogger
       set_input set_r set_w on_w get_input zap_L r w input entries fst snd World_init
       negb] in H.

(** A branch of [main] that ends in [return]. *)
Ltac returned Hrun :=
  injection Hrun as <- <-; split; [reflexivity|]; right;
  apply alarmed_reports; cbn [zap_L]; auto 12 with log.

(** The next call on [w], ready for a case analysis of its result. *)
Ltac call_w Hrun :=
  unfold bind at 1 in Hrun; unfold on_w at 1 in Hrun; cbn [w] in Hrun.

(** ** The size field of the header *)






Section Driver.
Context {U : Unicode}.

(** [main] up to its call of [getState], for a transfer that was set up
    and connected. *)
Ltac to_getState env f peer Hrun Hres Hstat Hopen Hdial :=
  unfold run, main in Hrun;
  rewrite Hres, Hstat, Hopen, Hdial in Hrun; exec Hrun;
  unfold bind at 1 in Hrun;
  match type of Hrun with
  | context [getState ?s] =>
      change s with (connected env f peer) in Hrun
  end.

(** Only the checks made before dialling end the process with a status
    other than 0. *)
Lemma run_setup_failure (env : Env) :
  resolves env = false \/ stat env = None \/ open env = None ->
  fst (run env) = os_Exit 1 /\ exit_status (fst (run env)) = 1%Z.
Proof.
  intros Hbad. unfold run, main.
  destruct (resolves env); [|now split].
  destruct (stat env) as [size|]; [|now split].
  destruct (open env) as [f|]; [|now split].
  destruct Hbad as [Hbad|[Hbad|Hbad]]; discriminate.
Qed.

(** No partial success: a run that got as far as dialling ends with
    [main] returning, so with exit status 0 whether or not it failed; and
    it either reports success, without any error entry and with the
    header, the whole file and the terminator on the wire and nothing
    left buffered, or it reports a failure through an error entry and
    never reports success. *)
Theorem run_outcome (env : Env) (size : Z) (f : File) :
  resolves env = true -> stat env = Some size -> open env = Some f ->
  exit_status (fst (run env)) = 0%Z
  /\ ((reports_success (snd (run env)) = true
       /\ reports_failure (snd (run env)) = false
       /\ sent (snd (run env)) = header env size ++ content f ++ [terminationCharacter]
       /\ wbuf (w (snd (run env))) = [])
      \/ (reports_success (snd (run env)) = false
          /\ reports_failure (snd (run env)) = true)).
Proof.
  intros Hres Hstat Hopen.
  destruct (run env) as [c p] eqn:Hrun. cbn [fst snd].
  destruct (dial env) as [peer|] eqn:Hdial.
  2:{ unfold run, main in Hrun. rewrite Hres, Hstat, Hopen, Hdial in Hrun. exec Hrun.
      injection Hrun as <- <-. split; [reflexivity|]. right.
      apply alarmed_reports. cbn [zap_L]. apply quiet_Error; [discriminate|].
      apply quiet_Debug; [discriminate|].
      apply Logger_write_quiet; [discriminate|auto|].
      split; [|split; reflexivity].
      unfold configured. cbn [enabled]. destruct (verbosity env); auto. }
  to_getState env f peer Hrun Hres Hstat Hopen Hdial.
  destruct (getState_effect (connected env f peer)) as (state & err & s1 & HG & Hw & Hi & Hl).
  specialize (Hl (connected_quiet env f peer)).
  rewrite HG in Hrun. exec Hrun.
  destruct err as [e|]; exec Hrun.
  { returned Hrun. }
  destruct (bytes_eqb state (str "init")) eqn:Hinit; exec Hrun.
  2:{ returned Hrun. }
  call_w Hrun. destruct (Write _ _) as [[n1 [e1|]] b1] eqn:EW1; exec Hrun.
  { returned Hrun. }
  call_w Hrun. destruct (io_Copy _ _) as [[n2 [e2|]] b2] eqn:EW2; exec Hrun.
  { returned Hrun. }
  call_w Hrun. destruct (WriteByte _ _) as [[e3|] b3] eqn:EW3; exec Hrun.
  { returned Hrun. }
  call_w Hrun. destruct (Flush _) as [[e4|] b4] eqn:EW4; exec Hrun.
  { returned Hrun. }
  unfold bind at 1 in Hrun.
  match type of Hrun with context [readMessage ?s] => 
    destruct (readMessage_effect s) as (msg & err & s5 & HM & Hw5 & Hi5 & Hl5) end.
  rewrite HM in Hrun. cbn [zap_L w] in Hw5, Hl5.
  assert (Hq5 : match err with None => quiet (zap_L s5) | Some _ => alarmed (zap_L s5) end)
    by (apply Hl5; auto 12 with log).
  clear Hl5.
  destruct err as [e5|]; exec Hrun.
  { returned Hrun. }
  destruct (bytes_eqb msg (str "GCODE_ACK")) eqn:Hack; exec Hrun.
  2:{ returned Hrun. }
  injection Hrun as <- <-. split; [reflexivity|]. left.
  unfold reports_success, reports_failure, sent. cbn [zap_L w].
  destruct (Logger_write_done Hq5) as [Hd He].
  split; [exact Hd|]. split; [exact He|].
  rewrite Hw5.
  apply Write_ok in EW1 as [_ A1].
  apply io_Copy_ok in EW2 as [_ A2].
  apply WriteByte_ok in EW3 as [_ A3].
  apply Flush_ok in EW4 as (_ & A4 & B4).
  rewrite A4, A3, A2, A1, Hw, Hi, B4. split; [|reflexivity].
  unfold accepted. cbn [connected w wr wire wbuf input bufio_NewWriter app].
  now rewrite <- app_assoc.
Qed.

(** C7: when the status parsed from the server's first frame is not
    [init], [main] returns with its writer untouched: nothing was written to
    the connection and nothing was buffered for it; no success is
    reported. *)
Theorem run_aborts_before_header
    (env : Env) (size : Z) (f : File) (peer : Peer) (state : bytes) (s s1 : Process) :
  resolves env = true -> stat env = Some size -> open env = Some f ->
  dial env = Some peer ->
  r s = bufio_NewReader (sends peer) ->
  getState s = (Next (state, None), s1) ->
  state <> str "init" ->
  fst (run env) = Return_
  /\ w (snd (run env)) = bufio_NewWriter (mkConnOut [] (accepts peer))
  /\ sent (snd (run env)) = []
  /\ reports_success (snd (run env)) = false.
Proof.
  intros Hres Hstat Hopen Hdial Hr HG Hne.
  destruct (run env) as [c p] eqn:Hrun. cbn [fst snd].
  to_getState env f peer Hrun Hres Hstat Hopen Hdial.
  destruct (getState_effect (connected env f peer)) as (state' & err & s1' & HG' & Hw & Hi & Hl).
  specialize (Hl (connected_quiet env f peer)).
  destruct (getState_reader s (connected env f peer) Hr) as [Ev _].
  rewrite HG, HG' in Ev. cbn [fst] in Ev. injection Ev as <- <-.
  rewrite HG' in Hrun. exec Hrun.
  apply bytes_eqb_neq in Hne. rewrite Hne in Hrun. exec Hrun.
  injection Hrun as <- <-. unfold sent. cbn [w]. rewrite Hw.
  repeat split.
  apply alarmed_reports. cbn [zap_L]. auto with log.
Qed.

(** C8: once the header, the file and the terminator have been written
    and flushed without error, the run reports success exactly when the
    next frame is read without error and equals [GCODE_ACK]; otherwise it
    reports a failure.  Either way the wire holds the full transfer, and
    the reader is left as that one read left it: nothing is read or sent
    again. *)
Theorem run_success_iff_ack
    (env : Env) (size : Z) (f : File) (peer : Peer) (s s1 t t' : Process)
    (n1 n2 : nat) (b1 b2 b3 b4 : bufio_Writer) (msg : bytes) (err : option error) :
  resolves env = true -> stat env = Some size -> open env = Some f ->
  dial env = Some peer ->
  r s = bufio_NewReader (sends peer) ->
  getState s = (Next (str "init", None), s1) ->
  Write (bufio_NewWriter (mkConnOut [] (accepts peer))) (header env size) = ((n1, None), b1) ->
  io_Copy b1 f = ((n2, None), b2) ->
  WriteByte b2 terminationCharacter = (None, b3) ->
  Flush b3 = (None, b4) ->
  r t = r s1 -> readMessage t = (Next (msg, err), t') ->
  (reports_success (snd (run env)) = true <-> err = None /\ msg = str "GCODE_ACK")
  /\ (reports_success (snd (run env)) = false -> reports_failure (snd (run env)) = true)
  /\ sent (snd (run env)) = header env size ++ content f ++ [terminationCharacter]
  /\ wbuf (w (snd (run env))) = []
  /\ r (snd (run env)) = r t'.
Proof.
  intros Hres Hstat Hopen Hdial Hrs HG EW1 EW2 EW3 EW4 Hr HM.
  destruct (run env) as [c p] eqn:Hrun. cbn [fst snd].
  to_getState env f peer Hrun Hres Hstat Hopen Hdial.
  destruct (getState_effect (connected env f peer)) as (state' & err' & s1' & HG' & Hw & Hi & Hl).
  specialize (Hl (connected_quiet env f peer)).
  destruct (getState_reader s (connected env f peer) Hrs) as [Ev Ers].
  rewrite HG, HG' in Ev, Ers. cbn [fst snd] in Ev, Ers.
  assert (Hst : state' = str "init" /\ err' = None) by (split; congruence).
  destruct Hst as [-> ->].
  rewrite Ers in Hr. clear Ev HG Ers Hrs s s1. rename s1' into s1.
  rewrite HG' in Hrun. exec Hrun.
  replace (bytes_eqb (str "init") (str "init")) with true in Hrun
    by (symmetry; now apply bytes_eqb_eq).
  exec Hrun.
  cbn [connected w input] in Hw, Hi.
  call_w Hrun. rewrite Hw, EW1 in Hrun. exec Hrun.
  call_w Hrun. rewrite Hi, EW2 in Hrun. exec Hrun.
  call_w Hrun. rewrite EW3 in Hrun. exec Hrun.
  call_w Hrun. rewrite EW4 in Hrun. exec Hrun.
  unfold bind at 1 in Hrun.
  match type of Hrun with context [readMessage ?s] =>
    destruct (readMessage_effect s) as (msg' & err'' & s5 & HM' & Hw5 & Hi5 & Hl5);
    destruct (readMessage_reader t s Hr) as [Ev Er]
  end.
  rewrite HM, HM' in Ev, Er. cbn [fst snd] in Ev, Er. injection Ev as <- <-.
  rewrite HM' in Hrun. cbn [zap_L w] in Hw5, Hl5.
  assert (Hq5 : match err with None => quiet (zap_L s5) | Some _ => alarmed (zap_L s5) end)
    by (apply Hl5; auto 12 with log).
  clear Hl5.
  assert (Hsent : wire (wr b4) = header env size ++ content f ++ [terminationCharacter]
                  /\ wbuf b4 = []).
  { apply Write_ok in EW1 as [_ A1].
    apply io_Copy_ok in EW2 as [_ A2].
    apply WriteByte_ok in EW3 as [_ A3].
    apply Flush_ok in EW4 as (_ & A4 & B4).
    rewrite A4, A3, A2, A1. split; [|exact B4].
    unfold accepted. cbn [wr wire wbuf bufio_NewWriter app].
    now rewrite <- app_assoc. }
  destruct Hsent as [Hwire Hbuf].
  destruct err as [e5|]; exec Hrun.
  { injection Hrun as <- <-. destruct Hq5 as (_ & Hf & Hs).
    unfold sent, reports_success, reports_failure. rewrite Hw5, Hwire, Hbuf, Hs, Hf.
    repeat split; try discriminate; try (symmetry; exact Er).
    intros [? _]; discriminate. }
  destruct (bytes_eqb msg (str "GCODE_ACK")) eqn:Hack; exec Hrun.
  - injection Hrun as <- <-. unfold sent, reports_success, reports_failure. cbn [zap_L w r].
    destruct (Logger_write_done Hq5) as [Hd He]. rewrite Hd, Hw5, Hwire, Hbuf.
    apply bytes_eqb_eq in Hack.
    repeat split; try discriminate; try (symmetry; exact Er); assumption.
  - injection Hrun as <- <-.
    assert (Ha : alarmed (Logger_write ErrorLevel "did not receive ack" (zap_L s5)))
      by auto with log.
    destruct Ha as (_ & Hf & Hs).
    unfold sent, reports_success, reports_failure. cbn [zap_L w r].
    rewrite Hw5, Hwire, Hbuf, Hs, Hf.
    apply bytes_eqb_neq in Hack.
    repeat split; try discriminate; try (symmetry; exact Er).
    intros [_ ?]; contradiction.
Qed.


End Driver.

(** ** The framer on the socket *)

(** C5: when 128 or more bytes without a terminator are waiting on the
    connection, [readMessage] fails with the oversized-message error and
    returns the empty string; the failure is logged. *)
Theorem readMessage_rejects_oversized (s : Process) (bs : bytes) (tl : ConnIn) :
  r s = bufio_NewReader (Data bs :: tl) ->
  messageBufferSize <= length bs ->
  ~ In terminationCharacter bs ->
  fst (readMessage s) = Next (str "", Some errOversizedMessage)
  /\ zap_L (snd (readMessage s)) = Logger_write ErrorLevel "failed to read message" (zap_L s).
Proof.
  intros Hr Hlen Hn.
  pose proof (@bufio_Read_long bs tl Hlen) as HR. rewrite <- Hr in HR.
  destruct (Read (r s) messageBufferSize) as [[buffer e] r'] eqn:E.
  assert (HR' : fst (buffer, e, r') = (firstn messageBufferSize bs, None))
    by (rewrite <- E; exact HR).
  assert (Hb : buffer = firstn messageBufferSize bs) by exact (f_equal fst HR').
  assert (He : e = None) by exact (f_equal snd HR').
  subst buffer e.
  rewrite (readMessage_full_buffer s E).
  - now split.
  - intros Hin. apply Hn. rewrite <- (firstn_skipn messageBufferSize bs).
    apply in_or_app. now left.
  - rewrite length_firstn. lia.
Qed.

(** * Further properties of the framer *)

Lemma scan_keeps_out_terminator (buffer : bytes) :
  forall i out, ~ In terminationCharacter out ->
    ~ In terminationCharacter (fst (scan i buffer out)).
Proof.
  induction buffer as [|c rest IH]; intros i out Hout; cbn [scan].
  - exact Hout.
  - destruct (Ascii.eqb c terminationCharacter) eqn:E; [exact Hout|].
    apply IH. intros Hin. apply in_app_or in Hin as [Hin|[Hin|[]]]; [now apply Hout|].
    subst c. now rewrite Ascii.eqb_refl in E.
Qed.

(** What the loop leaves behind is nothing, or begins with the terminator
    it stopped at. *)
Lemma scan_split (buffer : bytes) :
  forall i out, exists rest,
    out ++ buffer = fst (scan i buffer out) ++ rest
    /\ (rest = [] \/ exists post, rest = terminationCharacter :: post).
Proof.
  induction buffer as [|c tl IH]; intros i out; cbn [scan].
  - exists []. split; [reflexivity|now left].
  - destruct (Ascii.eqb c terminationCharacter) eqn:E.
    + apply Ascii.eqb_eq in E. subst c. exists (terminationCharacter :: tl).
      split; [reflexivity|right; now exists tl].
    + destruct (IH (S i) (out ++ [c])) as (rest & Hsplit & Hrest).
      exists rest. split; [|exact Hrest]. rewrite <- Hsplit, <- app_assoc. reflexivity.
Qed.

Section FramerMore.
Context {R : Type} `{Reader R}.

(** X1: a frame returned without error never holds the terminator byte. *)
Theorem readMessage_frame_no_terminator (s s' : World R) (msg : bytes) :
  readMessage s = (Next (msg, None), s') ->
  ~ In terminationCharacter msg.
Proof.
  destruct (Read (r s) messageBufferSize) as [[buffer [e|]] r'] eqn:HR.
  - rewrite (readMessage_read_err s HR). discriminate.
  - rewrite (readMessage_read_ok s HR).
    pose proof (@scan_keeps_out_terminator buffer 0 [] (fun F => F)) as Hn.
    destruct (scan 0 buffer []) as [out found].
    destruct (messageBufferSize <=? length out); [discriminate|].
    intros Heq. assert (out = msg) as <- by congruence. exact Hn.
Qed.

(** X2: a frame returned without error comes from one [Read]: that read
    returned the frame followed by nothing, or by a terminator and whatever
    came after it, and the reader is left as that read left it. *)
Theorem readMessage_frame_is_prefix_of_read (s s' : World R) (msg : bytes) :
  readMessage s = (Next (msg, None), s') ->
  exists rest,
    Read (r s) messageBufferSize = ((msg ++ rest, None), r s')
    /\ (rest = [] \/ exists post, rest = terminationCharacter :: post).
Proof.
  destruct (Read (r s) messageBufferSize) as [[buffer [e|]] r'] eqn:HR.
  - rewrite (readMessage_read_err s HR). discriminate.
  - rewrite (readMessage_read_ok s HR).
    destruct (scan_split buffer 0 []) as (rest & Hsplit & Hrest).
    destruct (scan 0 buffer []) as [out found]. cbn [fst app] in Hsplit.
    destruct (messageBufferSize <=? length out); [discriminate|].
    intros Heq. assert (out = msg) as -> by congruence.
    assert (r s' = r') as -> by (inversion Heq; reflexivity).
    exists rest. split; [now rewrite Hsplit|exact Hrest].
Qed.

(** X3: whenever [readMessage] returns an error, the string it returns is
    empty, and the last thing it did was to log the failure: no part of
    what was read comes back with an error. *)
Theorem readMessage_error_returns_nothing (s s' : World R) (msg : bytes) (e : error) :
  readMessage s = (Next (msg, Some e), s') ->
  msg = []
  /\ exists l, zap_L s' = Logger_write ErrorLevel "failed to read message" l.
Proof.
  destruct (Read (r s) messageBufferSize) as [[buffer [e'|]] r'] eqn:HR.
  - rewrite (readMessage_read_err s HR). intros Heq.
    inversion Heq; subst. split; [reflexivity|]. cbn [zap_L]. eauto.
  - rewrite (readMessage_read_ok s HR).
    destruct (scan 0 buffer []) as [out found].
    destruct (messageBufferSize <=? length out); [|discriminate].
    intros Heq. inversion Heq; subst. split; [reflexivity|]. cbn [zap_L]. eauto.
Qed.

(** X4: the bound is on the frame, not on the read: a read that fills the
    buffer is accepted when a terminator lies within it, and the frame is
    what precedes the first terminator. *)
Theorem readMessage_frame_in_full_read (s : World R) (pre post : bytes) (r' : R) :
  Read (r s) messageBufferSize = ((pre ++ terminationCharacter :: post, None), r') ->
  ~ In terminationCharacter pre ->
  length pre < messageBufferSize ->
  fst (readMessage s) = Next (pre, None) /\ r (snd (readMessage s)) = r'.
Proof.
  intros HR Hpre Hlen.
  rewrite (readMessage_read_ok s HR), scan_terminator by assumption.
  cbn [app].
  destruct (messageBufferSize <=? length pre) eqn:E; [|now split].
  apply Nat.leb_le in E. lia.
Qed.

End FramerMore.

(** * Further properties of the parser *)

(** ** Trimming and lower-casing ASCII text *)

Lemma ascii_lower_idem (c : ascii) : ascii_lower (ascii_lower c) = ascii_lower c.
Proof. destruct c as [[] [] [] [] [] [] [] []]; reflexivity. Qed.

Lemma ascii_lower_asciiSpace (c : ascii) : asciiSpace (ascii_lower c) = asciiSpace c.
Proof. destruct c as [[] [] [] [] [] [] [] []]; reflexivity. Qed.

Lemma ascii_lower_space (c : ascii) : ascii_lower c = space -> c = space.
Proof. destruct c as [[] [] [] [] [] [] [] []]; vm_compute; congruence. Qed.

Lemma ascii_lower_isASCII (c : ascii) :
  (nat_of_ascii (ascii_lower c) <? utf8_RuneSelf) = (nat_of_ascii c <? utf8_RuneSelf).
Proof. destruct c as [[] [] [] [] [] [] [] []]; reflexivity. Qed.

Lemma isASCII_lower (s : bytes) : isASCII s = true -> isASCII (map ascii_lower s) = true.
Proof.
  unfold isASCII. rewrite !forallb_forall. intros Hall c Hin.
  apply in_map_iff in Hin as (c0 & <- & Hin). rewrite ascii_lower_isASCII. now apply Hall.
Qed.

Lemma trimLeft_suffix (s : bytes) : exists ws, s = ws ++ trimLeft s.
Proof.
  induction s as [|c tl [ws IH]]; cbn [trimLeft]; [now exists []|].
  destruct (asciiSpace c); [|now exists []].
  exists (c :: ws). cbn [app]. now rewrite <- IH.
Qed.

Lemma trimLeft_headed (s : bytes) (c : ascii) (tl : bytes) :
  trimLeft s = c :: tl -> asciiSpace c = false.
Proof.
  induction s as [|a s' IH]; cbn [trimLeft]; [discriminate|].
  destruct (asciiSpace a) eqn:E; [exact IH|].
  intros Heq. now inversion Heq; subst.
Qed.

Lemma In_trim (s : bytes) (c : ascii) : In c (trimRight (trimLeft s)) -> In c s.
Proof.
  unfold trimRight. intros Hin. apply in_rev in Hin.
  destruct (trimLeft_suffix (rev (trimLeft s))) as [ws1 E1].
  assert (Hin1 : In c (rev (trimLeft s))) by (rewrite E1; apply in_or_app; now right).
  apply in_rev in Hin1.
  destruct (trimLeft_suffix s) as [ws2 E2]. rewrite E2. apply in_or_app. now right.
Qed.

Lemma isASCII_trim (s : bytes) : isASCII s = true -> isASCII (trimRight (trimLeft s)) = true.
Proof.
  unfold isASCII. rewrite !forallb_forall. intros Hall c Hin. apply Hall. now apply In_trim.
Qed.

(** A token is tight when its first and its last byte are not white space. *)
Lemma tight_ends (t : bytes) :
  tight t <->
  (forall c tl, t = c :: tl -> asciiSpace c = false)
  /\ (forall t0 z, t = t0 ++ [z] -> asciiSpace z = false).
Proof.
  split.
  - destruct t as [|c tl]; cbn [tight].
    + intros _. split; [discriminate|].
      intros t0 z E. now destruct t0.
    + intros [Hc Hl]. split.
      * intros c' tl' E. now inversion E; subst.
      * intros t0 z E. rewrite E, last_last in Hl. exact Hl.
  - intros [Hhd Hlast]. destruct t as [|c tl]; cbn [tight]; [exact I|].
    split; [now apply (Hhd c tl)|].
    destruct (@exists_last _ (c :: tl)) as (t0 & z & E); [discriminate|].
    rewrite E, last_last. now apply (Hlast t0 z).
Qed.

Lemma tight_trim (s : bytes) : tight (trimRight (trimLeft s)).
Proof.
  apply tight_ends. unfold trimRight.
  destruct (trimLeft_suffix (rev (trimLeft s))) as [ws E].
  split.
  - intros c tl Hc.
    apply (f_equal (@rev ascii)) in E. rewrite rev_involutive, rev_app_distr, Hc in E.
    cbn [app] in E. exact (trimLeft_headed s E).
  - intros t0 z Hz.
    apply (f_equal (@rev ascii)) in Hz. rewrite rev_involutive, rev_app_distr in Hz.
    cbn [rev app] in Hz. exact (trimLeft_headed _ Hz).
Qed.

Lemma tight_lower (t : bytes) : tight t -> tight (map ascii_lower t).
Proof.
  rewrite !tight_ends. intros [Hhd Hlast]. split.
  - intros c tl E. apply map_eq_cons in E as (c0 & tl0 & -> & <- & _).
    rewrite ascii_lower_asciiSpace. now apply (Hhd c0 tl0).
  - intros t0 z E. apply map_eq_app in E as (l1 & l2 & -> & _ & E2).
    apply map_eq_cons in E2 as (z0 & l3 & -> & <- & E3).
    apply map_eq_nil in E3. subst l3.
    rewrite ascii_lower_asciiSpace. now apply (Hlast l1 z0).
Qed.


(** A line splits into exactly two tokens when it holds exactly one
    separator. *)
Lemma strings_Split_two_inv (s : bytes) (sep : ascii) :
  length (strings_Split s sep) = 2 ->
  exists a b, s = a ++ sep :: b /\ ~ In sep a /\ ~ In sep b
              /\ strings_Split s sep = [a; b].
Proof.
  induction s as [|c tl IH]; cbn [strings_Split]; [discriminate|].
  destruct (Ascii.eqb c sep) eqn:E.
  - apply Ascii.eqb_eq in E. subst c. cbn [length]. intros Hlen.
    assert (Hone : length (strings_Split tl sep) = 1) by lia.
    rewrite strings_Split_length in Hone.
    assert (Hno : ~ In sep tl).
    { intros Hin. apply (count_occ_In ascii_dec) in Hin. lia. }
    exists [], tl. rewrite strings_Split_no_sep by assumption.
    repeat split; auto.
  - destruct (strings_Split tl sep) as [|t ts] eqn:Etl; [discriminate|].
    cbn [length]. intros Hlen.
    destruct IH as (a & b & Hs & Ha & Hb & Hsplit); [exact Hlen|].
    injection Hsplit as -> ->.
    exists (c :: a), b. apply Ascii.eqb_neq in E.
    repeat split; auto.
    + now rewrite Hs.
    + intros [Hc|Hin]; [congruence|now apply Ha].
Qed.

Section ParserMore.
Context {R : Type} `{Reader R} {U : Unicode}.

(** What an accepted line looks like. *)
Lemma getState_ok_inv (s s1 s2 : World R) (statusLine state : bytes) :
  readMessage s = (Next (statusLine, None), s1) ->
  getState s = (Next (state, None), s2) ->
  s2 = s1
  /\ exists key value,
       statusLine = key ++ space :: value
       /\ ~ In space key /\ ~ In space value
       /\ strings_ToUpper key = str "STATE:"
       /\ state = strings_ToLower (strings_TrimSpace value).
Proof.
  intros HM. rewrite (getState_read_ok s HM). cbv zeta.
  destruct (length (strings_Split statusLine space) =? 2) eqn:E2; cbn [negb];
    [|discriminate].
  apply Nat.eqb_eq in E2.
  destruct (strings_Split_two_inv _ _ E2) as (key & value & Hs & Hk & Hv & Hsplit).
  rewrite Hsplit. cbn [nth].
  destruct (bytes_eqb (strings_ToUpper key) (str "STATE:")) eqn:Ek; cbn [negb];
    [|discriminate].
  apply bytes_eqb_eq in Ek.
  intros Heq. split; [congruence|].
  exists key, value. repeat split; auto. congruence.
Qed.

(** X5: [getState] accepts a line exactly when the line is a key, one
    space and a value, with no other space in it, and the key upper-cased
    is [STATE:]; the state is then the value trimmed and lower-cased, and
    nothing is logged. *)
Theorem getState_accepts_iff (s s1 s2 : World R) (statusLine state : bytes) :
  readMessage s = (Next (statusLine, None), s1) ->
  getState s = (Next (state, None), s2) <->
  (s2 = s1
   /\ exists key value,
        statusLine = key ++ space :: value
        /\ ~ In space key /\ ~ In space value
        /\ strings_ToUpper key = str "STATE:"
        /\ state = strings_ToLower (strings_TrimSpace value)).
Proof.
  intros HM. split; [now apply getState_ok_inv|].
  intros (-> & key & value & -> & Hk & Hv & Hup & ->).
  rewrite (getState_read_ok s HM). cbv zeta.
  rewrite strings_Split_two by assumption. cbn [length Nat.eqb negb nth].
  apply bytes_eqb_eq in Hup. rewrite Hup. reflexivity.
Qed.

(** X7: on an ASCII line the state that [getState] returns is normalised:
    it holds no space, neither begins nor ends with white space, holds no
    capital letter, and is ASCII. *)
Theorem getState_state_normalised (s s1 s2 : World R) (statusLine state : bytes) :
  readMessage s = (Next (statusLine, None), s1) ->
  isASCII statusLine = true ->
  getState s = (Next (state, None), s2) ->
  ~ In space state
  /\ tight state
  /\ Forall (fun c => ascii_lower c = c) state
  /\ isASCII state = true.
Proof.
  intros HM Hascii HG.
  destruct (getState_ok_inv s HM HG) as (_ & key & value & -> & _ & Hv & _ & ->).
  rewrite isASCII_app in Hascii. apply andb_true_iff in Hascii as [_ Hascii].
  cbn [isASCII forallb] in Hascii. apply andb_true_iff in Hascii as [_ Hascii].
  fold (isASCII value) in Hascii.
  unfold strings_TrimSpace. rewrite Hascii.
  pose proof (isASCII_trim value Hascii) as Htrim.
  unfold strings_ToLower. rewrite Htrim.
  repeat split.
  - intros Hin. apply in_map_iff in Hin as (c & Hc & Hin).
    apply ascii_lower_space in Hc. subst c. apply Hv. now apply In_trim.
  - apply tight_lower, tight_trim.
  - apply Forall_forall. intros c Hin. apply in_map_iff in Hin as (c0 & <- & _).
    apply ascii_lower_idem.
  - now apply isASCII_lower.
Qed.

(** X6: an empty frame is not a status: when the read brought nothing, or
    began with the terminator, [getState] fails with the
    invalid-status-message error. *)
Theorem getState_rejects_empty_frame (s : World R) (buffer : bytes) (r' : R) :
  Read (r s) messageBufferSize = ((buffer, None), r') ->
  buffer = [] \/ (exists post, buffer = terminationCharacter :: post) ->
  fst (getState s) = Next (str "", Some errInvalidStatusMessage)
  /\ r (snd (getState s)) = r'.
Proof.
  intros HR Hempty.
  assert (HM : exists l, readMessage s = (Next ([], None), mkWorld l r' (w s) (input s))).
  { rewrite (readMessage_read_ok s HR).
    destruct Hempty as [-> | [post ->]]; cbn [scan].
    - replace (messageBufferSize <=? length (@nil ascii)) with false
        by (vm_compute; reflexivity).
      eauto.
    - rewrite Ascii.eqb_refl.
      replace (messageBufferSize <=? length (@nil ascii)) with false
        by (vm_compute; reflexivity).
      eauto. }
  destruct HM as [l HM]. rewrite (getState_read_ok s HM). now split.
Qed.

(** X16: whatever the outcome, [getState] performs exactly one [Read] of
    at most 128 bytes, and touches neither the writer nor the file. *)
Theorem getState_reads_once (s : World R) :
  r (snd (getState s)) = snd (Read (r s) messageBufferSize)
  /\ w (snd (getState s)) = w s
  /\ input (snd (getState s)) = input s.
Proof.
  destruct (Read (r s) messageBufferSize) as [[buffer [e|]] r'] eqn:HR; cbn [snd].
  - rewrite (getState_read_err s (readMessage_read_err s HR)). now split.
  - pose proof (readMessage_read_ok s HR) as HM.
    destruct (scan 0 buffer []) as [out found].
    destruct (messageBufferSize <=? length out).
    + rewrite (getState_read_err s HM). now split.
    + rewrite (getState_read_ok s HM). cbv zeta.
      destruct (negb (length (strings_Split out space) =? 2));
        [|destruct (negb (bytes_eqb _ _))]; now split.
Qed.

End ParserMore.

(** * Further properties of the driver *)

(** ** What reaches the wire *)

Lemma prefix_of_refl (a : bytes) : prefix_of a a.
Proof. exists []. now rewrite app_nil_r. Qed.

Lemma prefix_of_app (a b c : bytes) : prefix_of a b -> prefix_of a (b ++ c).
Proof. intros [rest ->]. exists (rest ++ c). now rewrite app_assoc. Qed.

Lemma prefix_of_trans (a b c : bytes) : prefix_of a b -> prefix_of b c -> prefix_of a c.
Proof. intros [r1 ->] [r2 ->]. exists (r1 ++ r2). now rewrite app_assoc. Qed.

Lemma tracks_prefix (b : bufio_Writer) (given full : bytes) :
  tracks b given -> prefix_of given full -> prefix_of (wire (wr b)) full.
Proof. intros [Hp _] Hg. exact (prefix_of_trans Hp Hg). Qed.

Lemma tracks_new (c : option nat) : tracks (bufio_NewWriter (mkConnOut [] c)) [].
Proof. split; [apply prefix_of_refl|reflexivity]. Qed.

(** The connection takes a prefix of what it is given, and all of it when
    it reports no error. *)
Lemma ConnOut_Write_sends (c c' : ConnOut) (p : bytes) (n : nat) (e : option error) :
  ConnOut_Write c p = ((n, e), c') ->
  exists q rest, p = q ++ rest /\ wire c' = wire c ++ q /\ (e = None -> rest = []).
Proof.
  unfold ConnOut_Write. destruct (room c) as [k|].
  - destruct (length p <=? k); intros E; injection E as <- <- <-; cbn [wire].
    + exists p, []. rewrite app_nil_r. auto.
    + exists (firstn k p), (skipn k p). rewrite firstn_skipn.
      repeat split. discriminate.
  - intros E; injection E as <- <- <-; cbn [wire].
    exists p, []. rewrite app_nil_r. auto.
Qed.

Lemma Flush_tracks (b b' : bufio_Writer) (given : bytes) (e : option error) :
  tracks b given -> Flush b = (e, b') ->
  tracks b' given /\ werr b' = e /\ (e = None -> wbuf b' = []).
Proof.
  intros Ht. pose proof Ht as [Hp Ha]. unfold Flush. destruct (werr b) as [e0|] eqn:Ee.
  { intros E. injection E as <- <-. split; [exact Ht|]. split; [exact Ee|discriminate]. }
  specialize (Ha eq_refl). unfold accepted in Ha.
  destruct (wbuf b) as [|c l] eqn:Eb.
  { intros E. injection E as <- <-. split; [exact Ht|]. now split. }
  destruct (ConnOut_Write (wr b) (c :: l)) as [[n e1] c'] eqn:Ec.
  destruct (ConnOut_Write_sends _ _ Ec) as (q & rest & Hq & Hw & Hnone).
  destruct e1 as [e1|]; intros E; injection E as <- <-; cbn [werr wr wbuf].
  - split; [|split; [reflexivity|discriminate]].
    split; [|discriminate]. cbn [wr].
    exists rest. rewrite Hw, <- Ha, Hq, <- app_assoc. reflexivity.
  - rewrite (Hnone eq_refl), app_nil_r in Hq. subst q.
    split; [|now split]. split; cbn [wr werr].
    + rewrite Hw, Ha. apply prefix_of_refl.
    + intros _. unfold accepted. cbn [wr wbuf]. now rewrite Hw, app_nil_r.
Qed.

Lemma Write_copy_tracks (b : bufio_Writer) (given p : bytes) (nn : nat) :
  werr b = None -> tracks b given ->
  tracks (snd (Write_copy b nn p)) (given ++ p).
Proof.
  intros Ee [Hp Ha]. unfold Write_copy. cbn [snd]. split; cbn [wr werr].
  - now apply prefix_of_app.
  - intros _. unfold accepted in *. cbn [wr wbuf]. now rewrite app_assoc, (Ha Ee).
Qed.

Lemma Write_direct_tracks (b : bufio_Writer) (given p : bytes) (nn : nat) :
  werr b = None -> wbuf b = [] -> tracks b given ->
  tracks (snd (Write_direct b nn p)) (given ++ p).
Proof.
  intros Ee Eb [Hp Ha]. unfold Write_direct.
  specialize (Ha Ee). unfold accepted in Ha. rewrite Eb, app_nil_r in Ha.
  destruct (ConnOut_Write (wr b) p) as [[n e] c'] eqn:Ec.
  destruct (ConnOut_Write_sends _ _ Ec) as (q & rest & Hq & Hw & Hnone).
  cbn [snd]. split; cbn [wr werr].
  - exists rest. now rewrite Hw, Ha, Hq, <- app_assoc.
  - intros ->. rewrite (Hnone eq_refl), app_nil_r in Hq. subst q.
    unfold accepted. cbn [wr wbuf]. now rewrite Hw, Eb, app_nil_r, Ha.
Qed.

Lemma Write_tracks (b : bufio_Writer) (given p : bytes) :
  tracks b given -> tracks (snd (Write b p)) (given ++ p).
Proof.
  intros Ht. unfold Write. destruct (werr b) as [e0|] eqn:Ee.
  { cbn [snd]. destruct Ht as [Hp _]. split; [now apply prefix_of_app|].
    rewrite Ee. discriminate. }
  destruct (length p <=? Available b); [now apply Write_copy_tracks|].
  destruct (Buffered b =? 0) eqn:E0.
  { apply Write_direct_tracks; auto.
    apply Nat.eqb_eq in E0. now apply length_zero_iff_nil in E0. }
  set (n := Available b).
  assert (Hfill : tracks (mkWriter (wr b) (wbuf b ++ firstn n p) None) (given ++ firstn n p)).
  { destruct Ht as [Hp Ha]. split; cbn [wr werr].
    - now apply prefix_of_app.
    - intros _. unfold accepted in *. cbn [wr wbuf]. now rewrite app_assoc, (Ha Ee). }
  destruct (Flush _) as [fe b1] eqn:EF.
  destruct (Flush_tracks Hfill EF) as (H1 & He1 & Hb1).
  assert (Hgiven : given ++ p = (given ++ firstn n p) ++ skipn n p)
    by now rewrite <- app_assoc, firstn_skipn.
  destruct (werr b1) as [e1|] eqn:Ee1.
  - cbn [snd]. destruct H1 as [Hp1 _]. rewrite Hgiven.
    split; [now apply prefix_of_app|]. rewrite Ee1. discriminate.
  - rewrite Hgiven.
    destruct (length (skipn n p) <=? Available b1); [now apply Write_copy_tracks|].
    apply Write_direct_tracks; auto; try (apply Hb1; congruence).
Qed.

Lemma WriteByte_tracks (b : bufio_Writer) (given : bytes) (c : ascii) :
  tracks b given -> tracks (snd (WriteByte b c)) (given ++ [c]).
Proof.
  intros Ht. unfold WriteByte. destruct (werr b) as [e0|] eqn:Ee.
  { cbn [snd]. destruct Ht as [Hp _]. split; [now apply prefix_of_app|].
    rewrite Ee. discriminate. }
  assert (Hput : forall b0, werr b0 = None -> tracks b0 given ->
                 tracks (mkWriter (wr b0) (wbuf b0 ++ [c]) None) (given ++ [c])).
  { intros b0 E0 [Hp Ha]. split; cbn [wr werr].
    - now apply prefix_of_app.
    - intros _. unfold accepted in *. cbn [wr wbuf]. now rewrite app_assoc, (Ha E0). }
  destruct (Available b <=? 0); [|cbn [snd]; now apply Hput].
  destruct (Flush b) as [fe b1] eqn:EF.
  destruct (Flush_tracks Ht EF) as (H1 & He1 & _).
  destruct fe as [e1|]; cbn [snd].
  - destruct H1 as [Hp1 _]. split; [now apply prefix_of_app|]. rewrite He1. discriminate.
  - now apply Hput.
Qed.

Lemma io_Copy_tracks (b : bufio_Writer) (given : bytes) (f : File) :
  tracks b given -> tracks (snd (io_Copy b f)) (given ++ content f).
Proof.
  intros Ht. pose proof (Write_tracks (content f) Ht) as HW. unfold io_Copy.
  destruct (Write b (content f)) as [[n [e|]] b1]; exact HW.
Qed.

(** ** Runs of [main] *)

(** [main] up to its call of [getState], for a transfer that was set up
    and connected. *)
Ltac at_getState env f peer Hrun Hres Hstat Hopen Hdial :=
  unfold run, main in Hrun;
  rewrite Hres, Hstat, Hopen, Hdial in Hrun; exec Hrun;
  unfold bind at 1 in Hrun;
  match type of Hrun with
  | context [getState ?s] =>
      change s with (connected env f peer) in Hrun
  end.

(** [given] is the beginning of the transfer. *)
Ltac begins :=
  unfold prefix_of; eexists; rewrite <- ?app_assoc; cbn [app]; reflexivity.

(** A branch of [main] that ends in [return], for the wire. *)
Ltac returned_wire Hrun T :=
  injection Hrun as <- <-; unfold sent; cbn [w];
  eapply tracks_prefix; [exact T|begins].

Section LogClosed.
Variable P : Logger -> Prop.
Hypothesis P_closed : forall lvl msg l, P l -> P (Logger_write lvl msg l).

Lemma readMessage_log_closed {R : Type} `{Reader R} (s : World R) :
  P (zap_L s) -> P (zap_L (snd (readMessage s))).
Proof.
  intros HP.
  destruct (Read (r s) messageBufferSize) as [[buffer [e|]] r'] eqn:HR.
  - rewrite (readMessage_read_err s HR). cbn [snd zap_L]. auto.
  - rewrite (readMessage_read_ok s HR).
    destruct (scan 0 buffer []) as [out [i|]];
      destruct (messageBufferSize <=? length out); cbn [snd zap_L]; auto.
Qed.

Lemma getState_log_closed {R : Type} `{Reader R} {U : Unicode} (s : World R) :
  P (zap_L s) -> P (zap_L (snd (getState s))).
Proof.
  intros HP. pose proof (readMessage_log_closed s HP) as HM.
  destruct (readMessage_total s) as (msg & [e|] & s1 & E).
  - rewrite (getState_read_err s E). now rewrite E in HM.
  - rewrite (getState_read_ok s E). rewrite E in HM. cbn [snd] in HM. cbv zeta.
    destruct (negb (length (strings_Split msg space) =? 2));
      [|destruct (negb (bytes_eqb _ _))]; cbn [snd zap_L]; auto.
Qed.

(** Whatever holds of the logger [initLogger] installs, and is kept by
    every entry written, holds of the log of every run. *)
Lemma run_log_closed {U : Unicode} (env : Env) :
  P (mkLogger (Some (if negb (verbosity env) then InfoLevel else DebugLevel)) []) ->
  P (zap_L (snd (run env))).
Proof.
  intros HP.
  destruct (run env) as [c p] eqn:Hrun. cbn [snd].
  unfold run, main in Hrun.
  destruct (resolves env) eqn:Hres; exec Hrun;
    [|injection Hrun as <- <-; cbn [zap_L]; auto].
  destruct (stat env) as [size|] eqn:Hstat; exec Hrun;
    [|injection Hrun as <- <-; cbn [zap_L]; auto].
  destruct (open env) as [f|] eqn:Hopen; exec Hrun;
    [|injection Hrun as <- <-; cbn [zap_L]; auto].
  destruct (dial env) as [peer|] eqn:Hdial; exec Hrun;
    [|injection Hrun as <- <-; cbn [zap_L]; auto].
  unfold bind at 1 in Hrun.
  match type of Hrun with context [getState ?s] =>
    pose proof (getState_log_closed s) as HG;
    destruct (getState_effect s) as (state & err & s1 & EG & Hw & Hi & _)
  end.
  rewrite EG in HG, Hrun. cbn [snd zap_L] in HG.
  assert (H1 : P (zap_L s1)) by (apply HG; auto). clear HG.
  exec Hrun.
  destruct err as [e|]; exec Hrun; [injection Hrun as <- <-; exact H1|].
  destruct (bytes_eqb state (str "init")); exec Hrun;
    [|injection Hrun as <- <-; cbn [zap_L]; auto].
  call_w Hrun. destruct (Write _ _) as [[n1 [e1|]] b1]; exec Hrun;
    [injection Hrun as <- <-; cbn [zap_L]; auto|].
  call_w Hrun. destruct (io_Copy _ _) as [[n2 [e2|]] b2]; exec Hrun;
    [injection Hrun as <- <-; cbn [zap_L]; auto 10|].
  call_w Hrun. destruct (WriteByte _ _) as [[e3|] b3]; exec Hrun;
    [injection Hrun as <- <-; cbn [zap_L]; auto 10|].
  call_w Hrun. destruct (Flush _) as [[e4|] b4]; exec Hrun;
    [injection Hrun as <- <-; cbn [zap_L]; auto 10|].
  unfold bind at 1 in Hrun.
  match type of Hrun with context [readMessage ?s] =>
    pose proof (readMessage_log_closed s) as HM;
    destruct (readMessage_total s) as (msg & err & s5 & EM)
  end.
  rewrite EM in HM, Hrun. cbn [snd zap_L] in HM.
  assert (H5 : P (zap_L s5)) by (apply HM; auto 10). clear HM.
  destruct err as [e5|]; exec Hrun; [injection Hrun as <- <-; exact H5|].
  destruct (bytes_eqb msg (str "GCODE_ACK")); exec Hrun;
    injection Hrun as <- <-; cbn [zap_L]; auto.
Qed.

End LogClosed.

Lemma Logger_write_terse (lvl : Level) (msg : string) (l : Logger) :
  terse l -> terse (Logger_write lvl msg l).
Proof.
  intros [He Hd]. unfold Logger_write. rewrite He.
  destruct lvl; cbn [Level_rank Nat.leb]; split; cbn [enabled entries]; auto;
    unfold logged in *; cbn [entries]; rewrite existsb_app, Hd; reflexivity.
Qed.

Section DriverMore.
Context {U : Unicode}.

(** X8: without [-v] no run, however it ends, leaves an entry of level
    [Debug] in the log. *)
Theorem run_logs_no_debug_unless_verbose (env : Env) :
  verbosity env = false ->
  logged DebugLevel (zap_L (snd (run env))) = false.
Proof.
  intros Hv.
  apply (@run_log_closed terse Logger_write_terse U env).
  rewrite Hv. now split.
Qed.

(** X9: whatever happens to the connection, what has reached the server
    when [main] ends is a beginning of the header, the file and the
    terminator, in this order: nothing else is ever sent. *)
Theorem run_sends_prefix_of_transfer (env : Env) (size : Z) (f : File) :
  stat env = Some size -> open env = Some f ->
  prefix_of (sent (snd (run env)))
            (header env size ++ content f ++ [terminationCharacter]).
Proof.
  intros Hstat Hopen.
  destruct (run env) as [c p] eqn:Hrun. cbn [snd].
  pose proof (tracks_new None) as Tinit.
  destruct (resolves env) eqn:Hres.
  2:{ unfold run, main in Hrun. rewrite Hres in Hrun. exec Hrun.
      returned_wire Hrun Tinit. }
  destruct (dial env) as [peer|] eqn:Hdial.
  2:{ unfold run, main in Hrun. rewrite Hres, Hstat, Hopen, Hdial in Hrun. exec Hrun.
      returned_wire Hrun Tinit. }
  at_getState env f peer Hrun Hres Hstat Hopen Hdial.
  destruct (getState_effect (connected env f peer)) as (state & err & s1 & HG & Hw & Hi & _).
  rewrite HG in Hrun. exec Hrun. cbn [connected w input] in Hw, Hi.
  pose proof (tracks_new (accepts peer)) as T0. rewrite <- Hw in T0.
  destruct err as [e|]; exec Hrun; [returned_wire Hrun T0|].
  destruct (bytes_eqb state (str "init")); exec Hrun; [|returned_wire Hrun T0].
  pose proof (Write_tracks (header env size) T0) as T1.
  call_w Hrun. destruct (Write _ _) as [[n1 e1] b1]. cbn [snd] in T1. exec Hrun.
  destruct e1 as [e1|]; exec Hrun; [returned_wire Hrun T1|].
  pose proof (io_Copy_tracks (input s1) T1) as T2.
  call_w Hrun. destruct (io_Copy _ _) as [[n2 e2] b2]. cbn [snd] in T2.
  rewrite Hi in T2. exec Hrun.
  destruct e2 as [e2|]; exec Hrun; [returned_wire Hrun T2|].
  pose proof (WriteByte_tracks terminationCharacter T2) as T3.
  call_w Hrun. destruct (WriteByte _ _) as [e3 b3]. cbn [snd] in T3. exec Hrun.
  destruct e3 as [e3|]; exec Hrun; [returned_wire Hrun T3|].
  call_w Hrun. destruct (Flush _) as [e4 b4] eqn:EF.
  destruct (Flush_tracks T3 EF) as (T4 & _ & _). exec Hrun.
  destruct e4 as [e4|]; exec Hrun; [returned_wire Hrun T4|].
  unfold bind at 1 in Hrun.
  match type of Hrun with context [readMessage ?s] =>
    destruct (readMessage_effect s) as (msg & err & s5 & HM & Hw5 & _ & _)
  end.
  rewrite HM in Hrun. cbn [w] in Hw5. rewrite <- Hw5 in T4.
  destruct err as [e5|]; exec Hrun; [returned_wire Hrun T4|].
  destruct (bytes_eqb msg (str "GCODE_ACK")); exec Hrun; returned_wire Hrun T4.
Qed.

End DriverMore.

(** ** The paths of [main] *)

Lemma bind_cong {S A B} (m : Go S A) (k : A -> Go S B) (s t : S) :
  m s = m t -> bind m k s = bind m k t.
Proof. intros E. unfold bind. now rewrite E. Qed.

(** A segment of 128 bytes or more without a terminator fails the frame. *)
Lemma readMessage_long_segment (s : Process) (bs : bytes) (tl : ConnIn) :
  r s = bufio_NewReader (Data bs :: tl) ->
  messageBufferSize <= length bs ->
  ~ In terminationCharacter bs ->
  exists r',
    readMessage s =
      (Next (str "", Some errOversizedMessage),
       mkWorld (Logger_write ErrorLevel "failed to read message" (zap_L s))
               r' (w s) (input s)).
Proof.
  intros Hr Hlen Hn.
  pose proof (@bufio_Read_long bs tl Hlen) as HR. rewrite <- Hr in HR.
  destruct (Read (r s) messageBufferSize) as [[buffer e] r'] eqn:E.
  assert (HR' : fst (buffer, e, r') = (firstn messageBufferSize bs, None))
    by (rewrite <- E; exact HR).
  assert (Hb : buffer = firstn messageBufferSize bs) by exact (f_equal fst HR').
  assert (He : e = None) by exact (f_equal snd HR').
  subst buffer e. exists r'.
  apply (readMessage_full_buffer s E).
  - intros Hin. apply Hn. rewrite <- (firstn_skipn messageBufferSize bs).
    apply in_or_app. now left.
  - rewrite length_firstn. lia.
Qed.

(** Decimal digits hold no terminator. *)
Lemma fmt_d_no_terminator (n : Z) : ~ In terminationCharacter (fmt_d n).
Proof.
  assert (Hu : forall d, ~ In terminationCharacter (str (NilEmpty.string_of_uint d))).
  { induction d; cbn [NilEmpty.string_of_uint str list_ascii_of_string];
      [intros []|..]; (intros [E|Hin]; [discriminate|now apply IHd]). }
  assert (Hz : forall d, ~ In terminationCharacter (str (NilZero.string_of_uint d))).
  { intros d. destruct d; try apply Hu.
    cbn. intros [E|[]]. discriminate. }
  unfold fmt_d. destruct (Z.to_int n) as [d|d]; cbn [NilZero.string_of_int].
  - apply Hz.
  - cbn [str list_ascii_of_string]. intros [E|Hin]; [discriminate|now apply (Hz d)].
Qed.

(** X10: the header is one line: when the path holds no line feed and
    the header's text is shorter than 128 bytes, [readMessage] on a read
    that delivers what [main] sends, the header and whatever follows it,
    returns exactly the header's text, without its terminator. *)
Theorem header_is_one_frame {R : Type} `{Reader R}
    (s : World R) (env : Env) (size : Z) (post : bytes) (r' : R) :
  ~ In terminationCharacter (inputFile env) ->
  length (str "GCODE: " ++ inputFile env ++ str ":" ++ fmt_d size) < messageBufferSize ->
  Read (r s) messageBufferSize = ((header env size ++ post, None), r') ->
  fst (readMessage s)
  = Next (str "GCODE: " ++ inputFile env ++ str ":" ++ fmt_d size, None)
  /\ r (snd (readMessage s)) = r'.
Proof.
  intros Hpath Hlen HR.
  set (text := str "GCODE: " ++ inputFile env ++ str ":" ++ fmt_d size) in *.
  assert (Hh : header env size ++ post = text ++ terminationCharacter :: post).
  { unfold header, text. now rewrite <- !app_assoc. }
  assert (Hn : ~ In terminationCharacter text).
  { unfold text. intros Hin.
    apply in_app_or in Hin as [Hin|Hin].
    { cbn in Hin. repeat (destruct Hin as [Hin|Hin]; [discriminate|]). exact Hin. }
    apply in_app_or in Hin as [Hin|Hin]; [now apply Hpath|].
    apply in_app_or in Hin as [Hin|Hin].
    { cbn in Hin. destruct Hin as [Hin|[]]. discriminate. }
    exact (fmt_d_no_terminator size Hin). }
  rewrite Hh in HR.
  rewrite (readMessage_read_ok s HR), scan_terminator by assumption.
  cbn [app].
  destruct (messageBufferSize <=? length text) eqn:E; [|now split].
  apply Nat.leb_le in E. lia.
Qed.

Ltac exec_goal :=
  cbn [bind ret return_ zap zap_Debug zap_Info zap_Error zap_Fatal initLogger
       set_input set_r set_w on_w get_input zap_L r w input entries fst snd World_init
       negb].

Section DriverPaths.
Context {U : Unicode}.

(** X11: the checks made before dialling end the process with status 1,
    after a [Fatal] entry, and with nothing written to any connection. *)
Theorem run_exits_on_setup_failure (env : Env) :
  resolves env = false \/ stat env = None \/ open env = None ->
  fst (run env) = os_Exit 1
  /\ logged FatalLevel (zap_L (snd (run env))) = true
  /\ reports_success (snd (run env)) = false
  /\ sent (snd (run env)) = []
  /\ wbuf (w (snd (run env))) = [].
Proof.
  intros Hbad. unfold run, main.
  destruct (resolves env).
  2:{ exec_goal. destruct (verbosity env); vm_compute; repeat split. }
  destruct (stat env) as [size|].
  2:{ exec_goal. destruct (verbosity env); vm_compute; repeat split. }
  destruct (open env) as [f|].
  2:{ exec_goal. destruct (verbosity env); vm_compute; repeat split. }
  destruct Hbad as [Hbad|[Hbad|Hbad]]; discriminate.
Qed.

(** X12: when the status cannot be read or parsed, whatever the reason,
    [main] returns with a failure reported and its writer untouched; the
    connection has been read once. *)
Theorem run_aborts_on_status_error
    (env : Env) (size : Z) (f : File) (peer : Peer) (state : bytes) (e : error)
    (s s1 : Process) :
  resolves env = true -> stat env = Some size -> open env = Some f ->
  dial env = Some peer ->
  r s = bufio_NewReader (sends peer) ->
  getState s = (Next (state, Some e), s1) ->
  fst (run env) = Return_
  /\ w (snd (run env)) = bufio_NewWriter (mkConnOut [] (accepts peer))
  /\ r (snd (run env)) = r s1
  /\ reports_failure (snd (run env)) = true
  /\ reports_success (snd (run env)) = false.
Proof.
  intros Hres Hstat Hopen Hdial Hr HG.
  destruct (run env) as [c p] eqn:Hrun. cbn [fst snd].
  at_getState env f peer Hrun Hres Hstat Hopen Hdial.
  destruct (getState_effect (connected env f peer)) as (state' & err & s1' & HG' & Hw & Hi & Hl).
  specialize (Hl (connected_quiet env f peer)).
  destruct (getState_reader s (connected env f peer) Hr) as [Ev Er].
  rewrite HG, HG' in Ev, Er. cbn [fst snd] in Ev, Er.
  assert (err = Some e) as -> by congruence.
  rewrite HG' in Hrun. exec Hrun.
  injection Hrun as <- <-.
  destruct (alarmed_reports s1' Hl) as [Hs Hf].
  repeat split; auto.
Qed.

(** X13: a status line of 128 bytes or more without a terminator makes
    [main] return before anything is written: the oversized frame is
    logged as a failed read, and the writer is untouched. *)
Theorem run_aborts_on_oversized_status
    (env : Env) (size : Z) (f : File) (bs : bytes) (tl : ConnIn) (a : option nat) :
  resolves env = true -> stat env = Some size -> open env = Some f ->
  dial env = Some (mkPeer (Data bs :: tl) a) ->
  messageBufferSize <= length bs ->
  ~ In terminationCharacter bs ->
  fst (run env) = Return_
  /\ w (snd (run env)) = bufio_NewWriter (mkConnOut [] a)
  /\ logged_msg ErrorLevel "failed to read message" (zap_L (snd (run env))) = true
  /\ reports_success (snd (run env)) = false.
Proof.
  intros Hres Hstat Hopen Hdial Hlen Hn.
  destruct (run env) as [c p] eqn:Hrun. cbn [fst snd].
  set (peer := mkPeer (Data bs :: tl) a) in *.
  at_getState env f peer Hrun Hres Hstat Hopen Hdial.
  destruct (@readMessage_long_segment (connected env f peer) bs tl eq_refl Hlen Hn)
    as (r' & HM).
  rewrite (getState_read_err _ HM) in Hrun. exec Hrun.
  injection Hrun as <- <-. cbn [w zap_L connected].
  split; [reflexivity|]. split; [reflexivity|].
  unfold reports_success. cbn [zap_L].
  destruct (verbosity env); vm_compute; split; reflexivity.
Qed.

(** X14: when the segment that brings the status line is of 128 bytes
    at most, the bytes in it after the status line's terminator change
    nothing: the run is the one against a server that sent the status
    line alone.  (A longer segment is another matter: [bufio] keeps what
    lies beyond the 128 bytes read.) *)
Theorem run_ignores_bytes_after_status
    (env : Env) (pre junk : bytes) (rest : ConnIn) (a : option nat) :
  ~ In terminationCharacter pre ->
  length (pre ++ terminationCharacter :: junk) <= messageBufferSize ->
  run (with_peer env (mkPeer (Data (pre ++ terminationCharacter :: junk) :: rest) a))
  = run (with_peer env (mkPeer (Data (pre ++ [terminationCharacter]) :: rest) a)).
Proof.
  intros Hpre Hlen. unfold run, main.
  cbn [with_peer resolves stat open dial verbosity inputFile].
  destruct (resolves env); [|reflexivity].
  destruct (stat env) as [size|]; [|reflexivity].
  destruct (open env) as [f|]; [|reflexivity].
  exec_goal. unfold header. cbn [with_peer inputFile sends accepts].
  apply bind_cong. unfold getState. apply bind_cong.
  assert (Hlen' : length (pre ++ [terminationCharacter]) <= messageBufferSize).
  { rewrite length_app in *. cbn [length] in *. lia. }
  match goal with |- readMessage ?sA = readMessage ?sB =>
    assert (HA : Read (r sA) messageBufferSize
                 = ((pre ++ terminationCharacter :: junk, None), mkReader rest [] None))
      by (apply bufio_Read_short; [now destruct pre|exact Hlen]);
    assert (HB : Read (r sB) messageBufferSize
                 = ((pre ++ [terminationCharacter], None), mkReader rest [] None))
      by (apply bufio_Read_short; [now destruct pre|exact Hlen']);
    rewrite (readMessage_read_ok sA HA), (readMessage_read_ok sB HB)
  end.
  rewrite !scan_terminator by assumption. reflexivity.
Qed.

(** X15: when reading the file fails, the run fails after the header and
    what could be read have been handed to the writer: the terminator is
    never written, nothing is flushed for it, and no acknowledgement is
    read. *)
Theorem run_stops_on_file_error
    (env : Env) (size : Z) (f : File) (peer : Peer) (e : error) (s s1 : Process) :
  resolves env = true -> stat env = Some size -> open env = Some f ->
  dial env = Some peer -> accepts peer = None ->
  r s = bufio_NewReader (sends peer) ->
  getState s = (Next (str "init", None), s1) ->
  read_err f = Some e ->
  fst (run env) = Return_
  /\ accepted (w (snd (run env))) = header env size ++ content f
  /\ r (snd (run env)) = r s1
  /\ reports_failure (snd (run env)) = true
  /\ reports_success (snd (run env)) = false.
Proof.
  intros Hres Hstat Hopen Hdial Hacc Hr HG Hferr.
  destruct (run env) as [c p] eqn:Hrun. cbn [fst snd].
  at_getState env f peer Hrun Hres Hstat Hopen Hdial.
  destruct (getState_effect (connected env f peer)) as (state' & err' & s1' & HG' & Hw & Hi & Hl).
  specialize (Hl (connected_quiet env f peer)).
  destruct (getState_reader s (connected env f peer) Hr) as [Ev Er].
  rewrite HG, HG' in Ev, Er. cbn [fst snd] in Ev, Er.
  assert (Hst : state' = str "init" /\ err' = None) by (split; congruence).
  destruct Hst as [-> ->].
  rewrite HG' in Hrun. exec Hrun.
  replace (bytes_eqb (str "init") (str "init")) with true in Hrun
    by (symmetry; now apply bytes_eqb_eq).
  exec Hrun.
  cbn [connected w input] in Hw, Hi.
  assert (H0 : healthy (w s1')) by (rewrite Hw, Hacc; now split).
  destruct (Write_healthy (header env size) H0) as (n1 & b1 & EW1 & H1).
  destruct (Write_healthy (content f) H1) as (n2 & b2 & EW2 & H2).
  call_w Hrun. rewrite EW1 in Hrun. exec Hrun.
  call_w Hrun. rewrite Hi in Hrun. unfold io_Copy in Hrun.
  rewrite EW2, Hferr in Hrun. exec Hrun.
  injection Hrun as <- <-. cbn [w r].
  apply Write_ok in EW1 as [_ A1]. apply Write_ok in EW2 as [_ A2].
  split; [reflexivity|]. split.
  { rewrite A2, A1, Hw. unfold accepted. reflexivity. }
  split; [now symmetry|].
  match goal with |- reports_failure ?p = true /\ _ =>
    destruct (alarmed_reports p) as [Hs Hf];
      [cbn [zap_L]; auto 12 with log|now split]
  end.
Qed.

End DriverPaths.

(** * The properties on the sample transfer *)

(** The sample is ASCII throughout; the Unicode tables are never consulted. *)
#[local] Existing Instance Unicode_none.

Lemma Forall_asciiSpace (ws : bytes) :
  forallb asciiSpace ws = true -> Forall (fun c => asciiSpace c = true) ws.
Proof. intros Hall. apply Forall_forall. now apply forallb_forall. Qed.

Lemma no_space (s : bytes) :
  forallb (fun c => negb (Ascii.eqb c space)) s = true -> ~ In space s.
Proof.
  intros Hall Hin. rewrite forallb_forall in Hall. specialize (Hall _ Hin).
  now rewrite Ascii.eqb_refl in Hall.
Qed.


(** C2, at the failing input of scenario B: the server is busy, the run
    fails (an error is logged and no success), and [main] returns, so that
    the exit status is 0 where a failing run is to end with a status other
    than 0, as the failures before dialling do. *)
Lemma run_failure_exits_zero :
  let out := @run Unicode_none (sample_env (server ["STATE: running"])) in
  reports_failure (snd out) = true
  /\ reports_success (snd out) = false
  /\ fst out = Return_
  /\ exit_status (fst out) = 0%Z.
Proof. vm_compute. repeat split. Qed.

Lemma run_outcome_witness :
  let out := @run Unicode_none (sample_env (server ["STATE: running"])) in
  exit_status (fst out) = 0%Z
  /\ ((reports_success (snd out) = true
       /\ reports_failure (snd out) = false
       /\ sent (snd out) =
            header (sample_env (server ["STATE: running"])) 10
              ++ content sample_file ++ [terminationCharacter]
       /\ wbuf (w (snd out)) = [])
      \/ (reports_success (snd out) = false /\ reports_failure (snd out) = true)).
Proof.
  exact (@run_outcome Unicode_none (sample_env (server ["STATE: running"])) 10%Z sample_file
           eq_refl eq_refl eq_refl).
Defined.

(** For C3 as stated: a token followed by a space is a third, empty token,
    and the line is rejected. *)
Lemma getState_rejects_space_padding :
  let s := sample (server ["STATE: init "]) in
  fst (readMessage s) = Next (str "STATE: init ", None)
  /\ fst (@getState _ _ Unicode_none s) = Next (str "", Some errInvalidStatusMessage)
  /\ fst (@getState _ _ Unicode_none s) <> Next (str "init", None).
Proof. vm_compute. repeat split. discriminate. Qed.

(** A lower-case key, and a token behind a tab and before a carriage
    return. *)
Lemma getState_returns_token_witness :
  let s := sample (mkPeer [Data (str "state: " ++ [tab] ++ str "Init"
                                  ++ [carriage_return; terminationCharacter])] None) in
  @getState _ _ Unicode_none s = (Next (str "init", None), snd (readMessage s)).
Proof.
  refine (proj2 (@getState_returns_token _ _ Unicode_none _ _
                   (str "state:") [tab] (str "Init") [carriage_return]
                   _ _ _ _ _) _ _).
  - repeat (constructor; [(left; reflexivity) || (right; reflexivity)|]). constructor.
  - apply Forall_asciiSpace. reflexivity.
  - apply Forall_asciiSpace. reflexivity.
  - apply no_space. reflexivity.
  - vm_compute. reflexivity.
  - reflexivity.
  - split; reflexivity.
Defined.

Lemma readMessage_returns_frame_witness :
  let s := sample (mkPeer [Data (line "STATE: init" ++ str "GCODE_ACK")] None) in
  readMessage s =
    (Next (str "STATE: init", None),
     mkWorld (Logger_write DebugLevel "found termination character" (zap_L s))
             (mkReader [] [] None) (w s) (input s)).
Proof.
  refine (@readMessage_returns_frame _ _ _ (str "STATE: init") (str "GCODE_ACK") _ _ _ _).
  - vm_compute. reflexivity.
  - apply (@line_no_terminator "STATE: init"). reflexivity.
  - apply Nat.ltb_lt. vm_compute. reflexivity.
Defined.

Lemma readMessage_rejects_oversized_witness :
  let s := sample (mkPeer [Data (repeat "x"%char 130)] None) in
  fst (readMessage s) = Next (str "", Some errOversizedMessage)
  /\ zap_L (snd (readMessage s)) = Logger_write ErrorLevel "failed to read message" (zap_L s).
Proof.
  refine (@readMessage_rejects_oversized (sample (mkPeer [Data (repeat "x"%char 130)] None))
            (repeat "x"%char 130) [] eq_refl _ _).
  - apply Nat.leb_le. vm_compute. reflexivity.
  - intros Hin. apply repeat_spec in Hin. discriminate.
Defined.

Lemma getState_rejects_malformed_witness :
  let s := sample (server ["STATE: init now"]) in
  exists s2,
    @getState _ _ Unicode_none s = (Next (str "", Some errInvalidStatusMessage), s2)
    /\ r s2 = r (snd (readMessage s)) /\ w s2 = w (snd (readMessage s)).
Proof.
  refine (@getState_rejects_malformed _ _ Unicode_none _ _ (str "STATE: init now") _ _).
  - vm_compute. reflexivity.
  - left. vm_compute. discriminate.
Defined.

(** Scenario B. *)
Lemma run_aborts_before_header_witness :
  let env := sample_env (server ["STATE: running"]) in
  fst (@run Unicode_none env) = Return_
  /\ w (snd (@run Unicode_none env)) = bufio_NewWriter (mkConnOut [] None)
  /\ sent (snd (@run Unicode_none env)) = []
  /\ reports_success (snd (@run Unicode_none env)) = false.
Proof.
  refine (@run_aborts_before_header Unicode_none
            (sample_env (server ["STATE: running"])) 10%Z sample_file
            (server ["STATE: running"]) (str "running")
            (sample (server ["STATE: running"]))
            (snd (getState (sample (server ["STATE: running"]))))
            eq_refl eq_refl eq_refl eq_refl eq_refl _ _).
  - vm_compute. reflexivity.
  - discriminate.
Defined.

(** Scenario C: the file is delivered, the server answers [DONE]. *)
Lemma run_success_iff_ack_witness :
  let env := sample_env (server ["STATE: init"; "DONE"]) in
  let out := @run Unicode_none env in
  (reports_success (snd out) = true <-> @None error = None /\ str "DONE" = str "GCODE_ACK")
  /\ (reports_success (snd out) = false -> reports_failure (snd out) = true)
  /\ sent (snd out) = header env 10 ++ content sample_file ++ [terminationCharacter]
  /\ wbuf (w (snd out)) = []
  /\ r (snd out) = r (snd (readMessage (sample (server ["DONE"])))).
Proof.
  pose (env := sample_env (server ["STATE: init"; "DONE"])).
  pose (w0 := bufio_NewWriter (mkConnOut [] None)).
  pose (b1 := snd (Write w0 (header env 10))).
  pose (b2 := snd (io_Copy b1 sample_file)).
  pose (b3 := snd (WriteByte b2 terminationCharacter)).
  pose (b4 := snd (Flush b3)).
  refine (@run_success_iff_ack Unicode_none env 10%Z sample_file
            (server ["STATE: init"; "DONE"])
            (sample (server ["STATE: init"; "DONE"]))
            (snd (getState (sample (server ["STATE: init"; "DONE"]))))
            (sample (server ["DONE"])) (snd (readMessage (sample (server ["DONE"]))))
            (fst (fst (Write w0 (header env 10)))) (fst (fst (io_Copy b1 sample_file)))
            b1 b2 b3 b4 (str "DONE") None
            eq_refl eq_refl eq_refl eq_refl eq_refl _ _ _ _ _ _ _);
    vm_compute; reflexivity.
Defined.

Lemma readMessage_accepts_unterminated_witness :
  let s := sample (mkPeer [Data (str "STATE: in")] None) in
  readMessage s =
    (Next (str "STATE: in", None), mkWorld (zap_L s) (mkReader [] [] None) (w s) (input s)).
Proof.
  refine (@readMessage_accepts_unterminated _ _ _ (str "STATE: in") _ _ _ _).
  - vm_compute. reflexivity.
  - split; apply Nat.ltb_lt; vm_compute; reflexivity.
  - apply (@line_no_terminator "STATE: in"). reflexivity.
Defined.

Lemma readMessage_frame_bound_witness :
  length (str "STATE: init") < messageBufferSize.
Proof.
  refine (@readMessage_frame_bound _ _ (sample (server ["STATE: init"]))
            (snd (readMessage (sample (server ["STATE: init"])))) (str "STATE: init") _).
  vm_compute. reflexivity.
Defined.

(** * The further properties on the sample transfer *)

Lemma readMessage_frame_no_terminator_witness :
  ~ In terminationCharacter (str "STATE: init").
Proof.
  refine (@readMessage_frame_no_terminator _ _ (sample (server ["STATE: init"]))
            (snd (readMessage (sample (server ["STATE: init"])))) (str "STATE: init") _).
  vm_compute. reflexivity.
Defined.

Lemma readMessage_frame_is_prefix_of_read_witness :
  let s := sample (mkPeer [Data (line "STATE: init" ++ str "GCODE_ACK")] None) in
  exists rest,
    Read (r s) messageBufferSize
    = ((str "STATE: init" ++ rest, None), r (snd (readMessage s)))
    /\ (rest = [] \/ exists post, rest = terminationCharacter :: post).
Proof.
  refine (@readMessage_frame_is_prefix_of_read _ _
            (sample (mkPeer [Data (line "STATE: init" ++ str "GCODE_ACK")] None))
            _ (str "STATE: init") _).
  vm_compute. reflexivity.
Defined.

(** The server has closed the connection. *)
Lemma readMessage_error_returns_nothing_witness :
  let s := sample (server []) in
  @nil ascii = []
  /\ exists l, zap_L (snd (readMessage s))
               = Logger_write ErrorLevel "failed to read message" l.
Proof.
  refine (@readMessage_error_returns_nothing _ _ (sample (server []))
            (snd (readMessage (sample (server [])))) [] io_EOF _).
  vm_compute. reflexivity.
Defined.

(** A read of 128 bytes: 127 bytes and their terminator. *)
Lemma readMessage_frame_in_full_read_witness :
  let s := sample (mkPeer [Data (repeat "x"%char 127 ++ [terminationCharacter])] None) in
  fst (readMessage s) = Next (repeat "x"%char 127, None)
  /\ r (snd (readMessage s)) = mkReader [] [] None.
Proof.
  refine (@readMessage_frame_in_full_read _ _
            (sample (mkPeer [Data (repeat "x"%char 127 ++ [terminationCharacter])] None))
            (repeat "x"%char 127) [] _ _ _ _).
  - vm_compute. reflexivity.
  - intros Hin. apply repeat_spec in Hin. discriminate.
  - apply Nat.ltb_lt. vm_compute. reflexivity.
Defined.

Lemma getState_accepts_iff_witness :
  let s := sample (server ["State: INIT"]) in
  getState s = (Next (str "init", None), snd (readMessage s)).
Proof.
  refine (proj2 (@getState_accepts_iff _ _ Unicode_none (sample (server ["State: INIT"]))
                   (snd (readMessage (sample (server ["State: INIT"])))) _
                   (str "State: INIT") (str "init") _) _).
  - vm_compute. reflexivity.
  - split; [reflexivity|].
    exists (str "State:"), (str "INIT").
    split; [reflexivity|]. split; [apply no_space; reflexivity|].
    split; [apply no_space; reflexivity|]. split; reflexivity.
Defined.

(** A blank line. *)
Lemma getState_rejects_empty_frame_witness :
  let s := sample (server [""]) in
  fst (getState s) = Next (str "", Some errInvalidStatusMessage)
  /\ r (snd (getState s)) = mkReader [] [] None.
Proof.
  refine (@getState_rejects_empty_frame _ _ Unicode_none (sample (server [""]))
            [terminationCharacter] _ _ _).
  - vm_compute. reflexivity.
  - right. now exists [].
Defined.

Lemma getState_state_normalised_witness :
  ~ In space (str "init")
  /\ tight (str "init")
  /\ Forall (fun c => ascii_lower c = c) (str "init")
  /\ isASCII (str "init") = true.
Proof.
  pose (s := sample (mkPeer [Data (str "state: " ++ [tab] ++ str "Init"
                                     ++ [carriage_return; terminationCharacter])] None)).
  refine (@getState_state_normalised _ _ Unicode_none s (snd (readMessage s))
            (snd (getState s)) (str "state: " ++ [tab] ++ str "Init" ++ [carriage_return])
            (str "init") _ _ _); vm_compute; reflexivity.
Defined.

Lemma run_logs_no_debug_unless_verbose_witness :
  logged DebugLevel
    (zap_L (snd (run (sample_env (server ["STATE: init"; "GCODE_ACK"]))))) = false.
Proof.
  exact (@run_logs_no_debug_unless_verbose Unicode_none
           (sample_env (server ["STATE: init"; "GCODE_ACK"])) eq_refl).
Defined.

(** The connection breaks after five bytes. *)
Lemma run_sends_prefix_of_transfer_witness :
  let env := sample_env (mkPeer [Data (line "STATE: init")] (Some 5)) in
  prefix_of (sent (snd (run env)))
            (header env 10 ++ content sample_file ++ [terminationCharacter]).
Proof.
  exact (@run_sends_prefix_of_transfer Unicode_none
           (sample_env (mkPeer [Data (line "STATE: init")] (Some 5))) 10%Z sample_file
           eq_refl eq_refl).
Defined.

Lemma header_is_one_frame_witness :
  let s := sample (mkPeer [Data (line "GCODE: part.nc:10" ++ line "G0 X10 Y20")] None) in
  fst (readMessage s) = Next (str "GCODE: part.nc:10", None)
  /\ r (snd (readMessage s)) = mkReader [] [] None.
Proof.
  refine (@header_is_one_frame _ _
            (sample (mkPeer [Data (line "GCODE: part.nc:10" ++ line "G0 X10 Y20")] None))
            (sample_env (server [])) 10%Z (line "G0 X10 Y20") _ _ _ _).
  - apply (@line_no_terminator "part.nc"). reflexivity.
  - apply Nat.ltb_lt. vm_compute. reflexivity.
  - vm_compute. reflexivity.
Defined.

(** The address does not resolve. *)
Lemma run_exits_on_setup_failure_witness :
  let env := mkEnv (str "part.nc") (str "nowhere") false false (Some 10%Z)
                   (Some sample_file) None in
  fst (run env) = os_Exit 1
  /\ logged FatalLevel (zap_L (snd (run env))) = true
  /\ reports_success (snd (run env)) = false
  /\ sent (snd (run env)) = []
  /\ wbuf (w (snd (run env))) = [].
Proof.
  refine (@run_exits_on_setup_failure Unicode_none
            (mkEnv (str "part.nc") (str "nowhere") false false (Some 10%Z)
                   (Some sample_file) None) _).
  left. reflexivity.
Defined.

(** The server closes the connection without a word. *)
Lemma run_aborts_on_status_error_witness :
  let env := sample_env (server []) in
  fst (run env) = Return_
  /\ w (snd (run env)) = bufio_NewWriter (mkConnOut [] None)
  /\ r (snd (run env)) = r (snd (getState (sample (server []))))
  /\ reports_failure (snd (run env)) = true
  /\ reports_success (snd (run env)) = false.
Proof.
  refine (@run_aborts_on_status_error Unicode_none (sample_env (server [])) 10%Z
            sample_file (server []) (str "") io_EOF (sample (server []))
            (snd (getState (sample (server []))))
            eq_refl eq_refl eq_refl eq_refl eq_refl _).
  vm_compute. reflexivity.
Defined.

(** Scenario D. *)
Lemma run_aborts_on_oversized_status_witness :
  let env := sample_env (mkPeer [Data (repeat "x"%char 130)] None) in
  fst (run env) = Return_
  /\ w (snd (run env)) = bufio_NewWriter (mkConnOut [] None)
  /\ logged_msg ErrorLevel "failed to read message" (zap_L (snd (run env))) = true
  /\ reports_success (snd (run env)) = false.
Proof.
  refine (@run_aborts_on_oversized_status Unicode_none
            (sample_env (mkPeer [Data (repeat "x"%char 130)] None)) 10%Z sample_file
            (repeat "x"%char 130) [] None eq_refl eq_refl eq_refl eq_refl _ _).
  - apply Nat.leb_le. vm_compute. reflexivity.
  - intros Hin. apply repeat_spec in Hin. discriminate.
Defined.

(** The acknowledgement sent along with the status is lost with it. *)
Lemma run_ignores_bytes_after_status_witness :
  run (with_peer (sample_env (server []))
         (mkPeer [Data (str "STATE: init" ++ terminationCharacter :: line "GCODE_ACK")] None))
  = run (with_peer (sample_env (server []))
           (mkPeer [Data (str "STATE: init" ++ [terminationCharacter])] None)).
Proof.
  refine (@run_ignores_bytes_after_status Unicode_none (sample_env (server []))
            (str "STATE: init") (line "GCODE_ACK") [] None _ _).
  - apply (@line_no_terminator "STATE: init"). reflexivity.
  - apply Nat.leb_le. vm_compute. reflexivity.
Defined.

Lemma run_stops_on_file_error_witness :
  let env := sample_env_for sample_broken_file 10 (server ["STATE: init"; "GCODE_ACK"]) in
  fst (run env) = Return_
  /\ accepted (w (snd (run env))) = header env 10 ++ str "G0 X10"
  /\ r (snd (run env)) = bufio_NewReader [Data (line "GCODE_ACK")]
  /\ reports_failure (snd (run env)) = true
  /\ reports_success (snd (run env)) = false.
Proof.
  pose (peer := server ["STATE: init"; "GCODE_ACK"]).
  pose (env := sample_env_for sample_broken_file 10 peer).
  refine (@run_stops_on_file_error Unicode_none env 10%Z sample_broken_file peer
            (errors_New "read part.nc: input/output error")
            (connected env sample_broken_file peer)
            (snd (getState (connected env sample_broken_file peer)))
            eq_refl eq_refl eq_refl eq_refl eq_refl eq_refl _ eq_refl).
  vm_compute. reflexivity.
Defined.
